(** * The build agent: job engine and artifact uploader

    A shallow embedding of [buildbox/job.go] (the job run loop) and of
    [buildkite/artifact_uploader.go] (artifact collection and upload),
    together with the properties of their observable behaviour.

    Calls that leave the two files (the HTTP client, the process runner,
    the file system, the transports, the loggers) are answered by a
    [World] record; every call that has an effect is written to a trace
    of events, and the theorems are statements about those traces. *)

From Stdlib Require Import ZArith String Ascii.
From stdpp Require Import base list strings pretty gmap.

Open Scope string_scope.
Open Scope list_scope.

(** ** Go values shared by both packages *)

(** A Go [error] is observed only through its [Error()] text. *)
Definition error := string.

(** [fmt.Sprintf("%d", n)] for a Go [int]. *)
Definition sprintf_d (n : Z) : string := pretty n.

(** How a Go function call can end: it returns a value, the process is
    terminated from inside ([log.Fatal] calls [os.Exit(1)] after printing),
    or the goroutine panics (a nil dereference). *)
Inductive Res (A : Type) : Type :=
| Val (a : A)
| Exit
| Panic.
Arguments Val {A} a.
Arguments Exit {A}.
Arguments Panic {A}.

(** ** Package buildbox: [job.go] *)

Module Buildbox.

Record Job := mkJob {
  ID : string;
  State : string;
  Env : gmap string string;
  Output : string;
  ExitStatus : string;
  StartedAt : string;
  FinishedAt : string
}.

(** The fields [Run] reads off a [Process]. *)
Record Process := mkProcess {
  Process_Output : string;
  Process_ExitStatus : Z
}.

Definition set_Output (v : string) (j : Job) : Job :=
  mkJob (ID j) (State j) (Env j) v (ExitStatus j) (StartedAt j) (FinishedAt j).
Definition set_ExitStatus (v : string) (j : Job) : Job :=
  mkJob (ID j) (State j) (Env j) (Output j) v (StartedAt j) (FinishedAt j).
Definition set_StartedAt (v : string) (j : Job) : Job :=
  mkJob (ID j) (State j) (Env j) (Output j) (ExitStatus j) v (FinishedAt j).
Definition set_FinishedAt (v : string) (j : Job) : Job :=
  mkJob (ID j) (State j) (Env j) (Output j) (ExitStatus j) (StartedAt j) v.

(** What the process runner does with a script. *)
Inductive Behaviour :=
| SpawnFails (p : Process) (e : error)
    (* the child could not be started; [p] is the process value that
       comes back next to the error *)
| Spawns (ticks : list string) (exited : Process)
         (linger : nat) (killed : Process).
    (* the child starts; [ticks] are the output snapshots at the timer
       ticks of an undisturbed run, which ends as [exited]; after a kill
       request at most [linger] further ticks fire and the run ends as
       [killed] *)

(** Everything outside [job.go]. *)
Record World := mkWorld {
  (* [time.Now().Format(time.RFC3339)] at the two places it is read *)
  clock_started : string;
  clock_finished : string;
  (* [c.Put(&updatedJob, path, job)], for the n-th call of the run:
     the job the client filled in, and the error *)
  put : nat → string → Job → Job * option error;
  (* [path.Dir] and [path.Base] *)
  path_Dir : string → string;
  path_Base : string → string;
  (* the script found by [RunScript(dir, name, env, _)] *)
  script : string → string → list string → Behaviour
}.

Inductive Event :=
| LogPrintf (msg : string)
| LogFatal (e : error)
| PutJob (path : string) (sent resp : Job) (err : option error)
| ScriptStart (dir name : string) (env : list string)
| Kill
| ScriptEnd (p : Process) (err : option error).

(** The agent while it runs one job: the [Job] behind the receiver
    pointer, the number of [Put] calls made, whether a kill was requested
    on the process handle, and the trace. *)
Record Agent := mkAgent {
  job : Job;
  puts : nat;
  kill_requested : bool;
  trace : list Event
}.

(** State passing with early exit. *)
Definition M (A : Type) : Type := Agent → Res A * Agent.

#[global] Instance M_ret : MRet M := λ A a s, (Val a, s).
#[global] Instance M_bind : MBind M := λ A B k m s,
  match m s with
  | (Val a, s') => k a s'
  | (Exit, s') => (Exit, s')
  | (Panic, s') => (Panic, s')
  end.

Definition emit (e : Event) : M unit :=
  λ s, (Val tt, mkAgent (job s) (puts s) (kill_requested s) (trace s ++ [e])).
Definition get_job : M Job := λ s, (Val (job s), s).
Definition update_job (f : Job → Job) : M unit :=
  λ s, (Val tt, mkAgent (f (job s)) (puts s) (kill_requested s) (trace s)).

Definition log_Printf (msg : string) : M unit := emit (LogPrintf msg).
Definition log_Fatal {A} (e : error) : M A :=
  λ s, (Exit, mkAgent (job s) (puts s) (kill_requested s)
                      (trace s ++ [LogFatal e])).

Definition get_kill_requested : M bool := λ s, (Val (kill_requested s), s).

(** [process.Kill()] on the handle the callback was given. *)
Definition Process_Kill : M unit :=
  λ s, (Val tt, mkAgent (job s) (puts s) true (trace s ++ [Kill])).

(** The first loop of [Run]: one [key=value] string per entry of [j.Env].
    Go leaves the order of a [range] over a map open; here it is the order
    of [map_to_list]. *)
Definition Run_env (j : Job) : list string :=
  (λ kv : string * string, kv.1 +:+ "=" +:+ kv.2) <$> map_to_list (Env j).

Section Run.
Context (w : World).

(** [Client.JobUpdate(job)]: a [Put] of the job to [jobs/<ID>]; the
    answer is the job the client decoded, and the error. *)
Definition JobUpdate (j : Job) : M (Job * option error) :=
  λ s, let path := "jobs/" +:+ ID j in
       let r := put w (puts s) path j in
       (Val r, mkAgent (job s) (S (puts s)) (kill_requested s)
                       (trace s ++ [PutJob path j r.1 r.2])).

(** The closure [callback] of [Run]; [j] is the agent's job. *)
Definition callback (process : Process) : M unit :=
  update_job (set_Output (Process_Output process));;
  j ← get_job;
  '(updatedJob, err) ← JobUpdate j;
  match err with
  | Some e => log_Fatal e
  | None =>
      if decide (State updatedJob = "canceled") then
        log_Printf ("Cancelling job #" +:+ ID j);;
        Process_Kill
      else mret tt
  end.

(** Modelled from the spec: the timer loop of the process runner
    ([RunScript] is declared in another file of the package).  The
    callback is invoked once per tick while the child is alive, one
    invocation at a time.  [left] is [None] until a kill was requested on
    the handle and then counts the ticks that may still fire.  The result
    tells whether the child was killed. *)
Fixpoint supervise (cb : Process → M unit) (linger : nat)
    (ticks : list string) (left : option nat) : M bool :=
  match left, ticks return M bool with
  | Some 0, _ => mret true
  | Some (S _), [] => mret true
  | None, [] => mret false
  | _, out :: rest =>
      cb (mkProcess out 0);;
      k ← get_kill_requested;
      supervise cb linger rest
        match left with
        | Some n => Some (pred n)
        | None => if k : bool then Some linger else None
        end
  end.

(** Modelled from the spec: [RunScript(dir, name, env, callback)] spawns
    the script, fails with the launch error before any callback fires, or
    supervises the child and returns it once it has exited. *)
Definition RunScript (dir name : string) (env : list string)
    (cb : Process → M unit) : M (Process * option error) :=
  emit (ScriptStart dir name env);;
  match script w dir name env with
  | SpawnFails p e =>
      emit (ScriptEnd p (Some e));;
      mret (p, Some e)
  | Spawns ticks exited linger killed =>
      was_killed ← supervise cb linger ticks None;
      let p := if was_killed : bool then killed else exited in
      emit (ScriptEnd p None);;
      mret (p, None)
  end.

(** [Job.Run(client, bootstrapScript)]. *)
Definition Run (bootstrapScript : string) : M (option error) :=
  j ← get_job;
  log_Printf ("Starting job #" +:+ ID j);;
  let env := Run_env j in
  update_job (set_StartedAt (clock_started w));;
  j ← get_job;
  JobUpdate j;;
  let scriptPath := path_Dir w bootstrapScript in
  let scriptName := path_Base w bootstrapScript in
  '(process, err) ← RunScript scriptPath scriptName env callback;
  match err with
  | None => update_job (set_Output (Process_Output process))
  | Some e => update_job (set_Output e)
  end;;
  update_job (set_FinishedAt (clock_finished w));;
  update_job (set_ExitStatus (sprintf_d (Process_ExitStatus process)));;
  j ← get_job;
  JobUpdate j;;
  log_Printf ("Finished job #" +:+ ID j);;
  mret None.

End Run.

(** A run starts with nothing sent and nothing logged. *)
Definition start (j : Job) : Agent := mkAgent j 0 false [].

Definition run (w : World) (j : Job) (bootstrapScript : string)
  : Res (option error) * Agent :=
  Run w bootstrapScript (start j).

(** *** Reading a trace *)

Definition is_ScriptStart (e : Event) : bool :=
  match e with ScriptStart _ _ _ => true | _ => false end.
Definition is_ScriptEnd (e : Event) : bool :=
  match e with ScriptEnd _ _ => true | _ => false end.
Definition is_PutJob (e : Event) : bool :=
  match e with PutJob _ _ _ _ => true | _ => false end.
Definition is_Kill (e : Event) : bool :=
  match e with Kill => true | _ => false end.
Definition is_LogFatal (e : Event) : bool :=
  match e with LogFatal _ => true | _ => false end.
Definition is_log (e : Event) : bool :=
  match e with LogPrintf _ | LogFatal _ => true | _ => false end.

(** The running phase: the events seen so far, [pre], show that
    [RunScript] was entered and has not returned. *)
Definition running (pre : list Event) : bool :=
  existsb is_ScriptStart pre && negb (existsb is_ScriptEnd pre).

(** The started phase: [RunScript] has not been entered. *)
Definition starting (pre : list Event) : bool :=
  negb (existsb is_ScriptStart pre).

(** What is left of a callback tick after its status push: the events up
    to the next push or to the return of [RunScript]. *)
Fixpoint tick_rest (post : list Event) : list Event :=
  match post with
  | [] => []
  | e :: post' =>
      if is_PutJob e || is_ScriptEnd e then [] else e :: tick_rest post'
  end.

(** The events of a sequence of callback ticks of job [id]; the flag tells
    whether the sequence ended in [log.Fatal]. *)
Inductive ticks_trace (id : string) : list Event → bool → Prop :=
| ticks_none :
    ticks_trace id [] false
| ticks_fatal path sent resp e :
    ticks_trace id [PutJob path sent resp (Some e); LogFatal e] true
| ticks_quiet path sent resp R x :
    State resp ≠ "canceled" →
    ticks_trace id R x →
    ticks_trace id (PutJob path sent resp None :: R) x
| ticks_kill path sent resp R x :
    State resp = "canceled" →
    ticks_trace id R x →
    ticks_trace id (PutJob path sent resp None
                      :: LogPrintf ("Cancelling job #" +:+ id) :: Kill :: R) x.

(** The sentence of the design document on a failed launch, read
    literally: the job comes out with the launch error as output, with no
    exit status, with [FinishedAt] stamped and with a last push that
    carries exactly this job. *)
Definition launch_failure_as_documented (w : World) (j : Job)
    (bootstrapScript : string) : Prop :=
  ∀ p e,
    script w (path_Dir w bootstrapScript) (path_Base w bootstrapScript)
      (Run_env j) = SpawnFails p e →
    let r := run w j bootstrapScript in
    r.1 = Val None
    ∧ Output (job r.2) = e
    ∧ ExitStatus (job r.2) = ""
    ∧ FinishedAt (job r.2) = clock_finished w
    ∧ ∃ pre path resp err,
        trace r.2 = pre ++ [PutJob path (job r.2) resp err;
                            LogPrintf ("Finished job #" +:+ ID j)].

(** The sentence of the design document on the first push, read
    literally: when the push made before the launch fails, something is
    logged about it before the script is started. *)
Definition started_push_failure_logged (w : World) (j : Job)
    (bootstrapScript : string) : Prop :=
  ∀ pre path sent resp e post,
    trace (run w j bootstrapScript).2
      = pre ++ PutJob path sent resp (Some e) :: post →
    starting pre = true →
    ∃ mid dir name env rest,
      post = mid ++ ScriptStart dir name env :: rest
      ∧ existsb is_log mid = true.

(** *** Sample runs *)

Definition sample_job : Job :=
  mkJob "7" "scheduled" {[ "CI" := "true" ]} "" "" "" "".

(** A world whose server answers the [n]-th push by [answer n] and whose
    script behaves as [b]. *)
Definition sample_world (answer : nat → Job → Job * option error)
    (b : Behaviour) : World :=
  mkWorld "2014-05-01T10:00:00Z" "2014-05-01T10:00:05Z"
    (λ n _ j, answer n j)
    (λ _, "/etc/agent") (λ _, "bootstrap.sh")
    (λ _ _ _, b).

Definition three_ticks : Behaviour :=
  Spawns ["one"; "one two"; "one two three"]
    (mkProcess "one two three done" 0) 1 (mkProcess "one two" (-1)).

(** The server cancels the job in its answer to the second tick (the
    third push of the run). *)
Definition canceling_world : World :=
  sample_world
    (λ n j, (mkJob (ID j) (if decide (n = 2) then "canceled" else "running")
               (Env j) "" "" "" "", None))
    three_ticks.

(** The push of the second tick fails. *)
Definition broken_channel_world : World :=
  sample_world
    (λ n j, (mkJob "" "" ∅ "" "" "" "",
             if decide (n = 2) then Some "connection refused" else None))
    three_ticks.

(** The script cannot be started. *)
Definition no_launch_world : World :=
  sample_world
    (λ n j, (mkJob (ID j) "running" (Env j) "" "" "" "", None))
    (SpawnFails (mkProcess "" 1) "fork/exec bootstrap.sh: permission denied").

(** The server is unreachable for the first push only. *)
Definition late_server_world : World :=
  sample_world
    (λ n j, (mkJob "" "" ∅ "" "" "" "",
             if decide (n = 0) then Some "connection refused" else None))
    three_ticks.

(** *** What is pushed *)

(** The jobs pushed to the server, in order. *)
Fixpoint pushes (tr : list Event) : list Job :=
  match tr with
  | [] => []
  | PutJob _ sent _ _ :: tr' => sent :: pushes tr'
  | _ :: tr' => pushes tr'
  end.

(** A push of [j] up to its output: to the path of [j], of a job that
    differs from [j] in [Output] at most. *)
Definition push_of (j : Job) (ev : Event) : Prop :=
  match ev with
  | PutJob path sent _ _ =>
      path = "jobs/" +:+ ID j ∧ set_Output (Output j) sent = j
  | _ => True
  end.

End Buildbox.


(** ** Package buildkite: [artifact_uploader.go] *)

Module Buildkite.

(** *** The string functions of Go's [strings] package that are used *)

(** [strings.Split(s, sep)] for a one-byte separator. *)
Fixpoint strings_Split (s : string) (sep : ascii) : list string :=
  match s with
  | EmptyString => [EmptyString]
  | String c s' =>
      if decide (c = sep) then EmptyString :: strings_Split s' sep
      else match strings_Split s' sep with
           | [] => [String c EmptyString]
           | word :: words => String c word :: words
           end
  end.

(** White space, for the one-byte code points: tab, line feed, vertical
    tab, form feed, carriage return and space. *)
Definition is_space (c : ascii) : bool :=
  let n := nat_of_ascii c in
  (Nat.leb 9 n && Nat.leb n 13) || Nat.eqb n 32.

Fixpoint trim_left (s : string) : string :=
  match s with
  | String c s' => if is_space c then trim_left s' else s
  | EmptyString => EmptyString
  end.

Fixpoint trim_right (s : string) : string :=
  match s with
  | String c s' =>
      match trim_right s' with
      | EmptyString => if is_space c then EmptyString else String c EmptyString
      | t => String c t
      end
  | EmptyString => EmptyString
  end.

(** [strings.TrimSpace] *)
Definition strings_TrimSpace (s : string) : string := trim_right (trim_left s).

(** [strings.HasPrefix] *)
Definition strings_HasPrefix (s prefix : string) : bool := String.prefix prefix s.

Fixpoint string_drop (n : nat) (s : string) : string :=
  match n, s with
  | S n', String _ s' => string_drop n' s'
  | _, _ => s
  end.

(** [strings.TrimPrefix] *)
Definition strings_TrimPrefix (s prefix : string) : string :=
  if strings_HasPrefix s prefix then string_drop (String.length prefix) s else s.

(** [strings.Replace(s, old, "", 1)]: the first occurrence of [old] is cut
    out of [s]. *)
Fixpoint strings_Replace_first (s old : string) : string :=
  if strings_HasPrefix s old then string_drop (String.length old) s
  else match s with
       | String c s' => String c (strings_Replace_first s' old)
       | EmptyString => EmptyString
       end.

(** The double quote, for the log lines that quote a path. *)
Definition dquote : string := String (ascii_of_nat 34) EmptyString.

(** *** Data *)

(** The API client is only handed on. *)
Inductive API := APIClient (endpoint : string).

Record ArtifactUploader := mkArtifactUploader {
  JobID : string;
  Paths : string;
  Destination : string;
  Uploader_API : API
}.

(** The fields of an [Artifact] that this file sets. *)
Record Artifact := mkArtifact {
  Artifact_API : API;
  Artifact_JobID : string;
  State : string;
  Path : string;
  AbsolutePath : string;
  GlobPath : string;
  FileSize : Z;
  Sha1Sum : string;
  URL : string
}.

Definition set_State (v : string) (a : Artifact) : Artifact :=
  mkArtifact (Artifact_API a) (Artifact_JobID a) v (Path a) (AbsolutePath a)
    (GlobPath a) (FileSize a) (Sha1Sum a) (URL a).
Definition set_URL (v : string) (a : Artifact) : Artifact :=
  mkArtifact (Artifact_API a) (Artifact_JobID a) (State a) (Path a)
    (AbsolutePath a) (GlobPath a) (FileSize a) (Sha1Sum a) v.

(** What [os.Stat] and [File.Stat] tell about a file. *)
Record FileInfo := mkFileInfo {
  IsDir : bool;
  Size : Z
}.

(** The two implementations of the [Uploader] interface. *)
Inductive UploaderKind := FormUploader | S3Uploader.

(** Everything outside [artifact_uploader.go].  A Go result pair
    [(value, err)] of which only one side is set is a sum. *)
Record World := mkWorld {
  (* [os.Getwd()], whose error is dropped *)
  Getwd : string;
  (* [os.PathSeparator] *)
  PathSeparator : ascii;
  (* [glob.Glob(root, pattern)] *)
  Glob : string → string → list string + error;
  (* [filepath.Abs(file)] *)
  Abs : string → string + error;
  (* [os.Stat(path)]: with an error the [FileInfo] is nil *)
  Stat : string → FileInfo + error;
  (* [os.Open(path)]; an open file is known by its path *)
  Open : string → string + error;
  (* [file.Stat()] *)
  File_Stat : string → FileInfo + error;
  (* [io.Copy(hash, file)]: the bytes that reached the hash, and the
     error that stopped the copy, if any *)
  Copy : string → string * option error;
  (* [fmt.Sprintf("%x", hash.Sum(nil))] of a SHA-1 hash fed these bytes *)
  Sha1Hex : string → string;
  (* [uploader.Setup(destination)] *)
  Uploader_Setup : UploaderKind → string → option error;
  (* [uploader.URL(artifact)] *)
  Uploader_URL : UploaderKind → Artifact → string;
  (* [batchCreator.Create()] for this API, job and list of artifacts *)
  Batch_Create : API → string → list Artifact → option error;
  (* [uploader.Upload(artifact)], called by the task of artifact [i] *)
  Uploader_Upload : UploaderKind → nat → Artifact → option error;
  (* [artifact.Update()], called by the task of artifact [i] *)
  Artifact_Update : nat → Artifact → option error
}.

Inductive Event :=
| LogDebug (msg : string)
| LogInfo (msg : string)
| LogError (msg : string)
| LogFatal (msg : string)
| EvSetup (k : UploaderKind) (destination : string)
| EvURL (k : UploaderKind) (i : nat) (a : Artifact)
| EvCreate (api : API) (jobID : string) (artifacts : list Artifact)
| EvSpawn (i : nat)
| EvUpload (k : UploaderKind) (i : nat) (a : Artifact)
| EvLock (i : nat)
| EvAppend (i : nat) (e : error)
| EvUnlock (i : nat)
| EvUpdate (i : nat) (a : Artifact)
| EvWait.

(** *** Collection *)

Section Collect.
Context (w : World) (a : ArtifactUploader).

(** [ArtifactUploader.build(relativePath, absolutePath, globPath)] *)
Definition build (relativePath absolutePath globPath : string)
  : Artifact + error :=
  match Open w absolutePath with
  | inr err => inr err
  | inl file =>
      match File_Stat w file with
      | inr err => inr err
      | inl fileInfo =>
          (* [io.Copy(hash, file)]: both results are dropped *)
          let hashed := (Copy w file).1 in
          let checksum := Sha1Hex w hashed in
          inl (mkArtifact (Uploader_API a) (JobID a) "new" relativePath
                 absolutePath globPath (Size fileInfo) checksum "")
      end
  end.

(** The inner loop of [collect], over the files one pattern matched.
    The result is the pair [(artifacts, err)] that [collect] returns from
    inside the loop, or the list of artifacts to go on with. *)
Fixpoint collect_files (workingDirectory globPath : string)
    (files : list string) (artifacts : list Artifact) (tr : list Event)
  : Res ((list Artifact * option error) + list Artifact) * list Event :=
  match files with
  | [] => (Val (inr artifacts), tr)
  | file :: files' =>
      match Abs w file with
      | inr err => (Val (inl ([], Some err)), tr)
      | inl absolutePath =>
          match Stat w absolutePath with
          | inr _ =>
              (* [err] is not looked at and [fileInfo] is nil:
                 [fileInfo.IsDir()] is a nil dereference *)
              (Panic, tr)
          | inl fileInfo =>
              if IsDir fileInfo then
                collect_files workingDirectory globPath files' artifacts
                  (tr ++ [LogDebug ("Skipping directory " +:+ file)])
              else
                let relativePath :=
                  strings_Replace_first absolutePath workingDirectory in
                let relativePath :=
                  strings_TrimPrefix relativePath
                    (String (PathSeparator w) EmptyString) in
                match build relativePath absolutePath globPath with
                | inr err => (Val (inl ([], Some err)), tr)
                | inl artifact =>
                    collect_files workingDirectory globPath files'
                      (artifacts ++ [artifact]) tr
                end
          end
      end
  end.

(** The outer loop of [collect], over the patterns. *)
Fixpoint collect_paths (workingDirectory : string) (globPaths : list string)
    (artifacts : list Artifact) (tr : list Event)
  : Res (list Artifact * option error) * list Event :=
  match globPaths with
  | [] => (Val (artifacts, None), tr)
  | globPath :: globPaths' =>
      let globPath := strings_TrimSpace globPath in
      if decide (globPath = "") then
        collect_paths workingDirectory globPaths' artifacts tr
      else
        let tr := tr ++ [LogDebug ("Globbing " +:+ workingDirectory
                                     +:+ " for " +:+ globPath)] in
        match Glob w workingDirectory globPath with
        | inr err => (Val ([], Some err), tr)
        | inl files =>
            match collect_files workingDirectory globPath files artifacts tr with
            | (Val (inl returned), tr) => (Val returned, tr)
            | (Val (inr artifacts), tr) =>
                collect_paths workingDirectory globPaths' artifacts tr
            | (Exit, tr) => (Exit, tr)
            | (Panic, tr) => (Panic, tr)
            end
        end
  end.

(** [ArtifactUploader.collect()] *)
Definition collect : Res (list Artifact * option error) * list Event :=
  let globPaths := strings_Split (Paths a) ";"%char in
  let workingDirectory := Getwd w in
  collect_paths workingDirectory globPaths [] [].

End Collect.

(** *** The worker pool *)

(** Where a task is.  The task of artifact [i] logs, uploads, records the
    upload error under the lock if there is one, updates the artifact on
    the server and records the error of that under the lock. *)
Inductive Phase := AfterUpload | AfterUpdate.

Inductive PC :=
| PStart
| PUpload
| PLock (err : error) (ph : Phase)
| PAppend (err : error) (ph : Phase)
| PUnlock (err : error) (ph : Phase)
| PUpdate
| PDone.

(** What the goroutines of [upload] share: the artifacts behind the
    pointers of the slice, the tasks spawned so far (task [i] is the one
    of artifact [i]), the pool's lock with its holder, the slice [errors],
    and the trace. *)
Record Pool := mkPool {
  arts : list Artifact;
  pcs : list PC;
  lock : option nat;
  errors : list error;
  trace : list Event
}.

(** Who moves next: the goroutine that runs [upload], or a task. *)
Inductive Choice := Main | Task (i : nat).

Definition in_critical_section (pc : PC) : bool :=
  match pc with
  | PAppend _ _ | PUnlock _ _ => true
  | _ => false
  end.

Section Pool.
Context (w : World) (uploader : UploaderKind).

(** One step of the closure given to [p.Spawn] for artifact [i]. *)
Definition task_step (i : nat) (st : Pool) : Pool :=
  match pcs st !! i, arts st !! i with
  | Some pc, Some artifact =>
      match pc with
      | PStart =>
          mkPool (arts st) (<[i := PUpload]> (pcs st)) (lock st) (errors st)
            (trace st ++ [LogInfo ("Uploading " +:+ dquote +:+ Path artifact
                                     +:+ dquote +:+ " "
                                     +:+ sprintf_d (FileSize artifact)
                                     +:+ " bytes")])
      | PUpload =>
          match Uploader_Upload w uploader i artifact with
          | Some err =>
              mkPool (<[i := set_State "error" artifact]> (arts st))
                (<[i := PLock err AfterUpload]> (pcs st)) (lock st) (errors st)
                (trace st ++ [EvUpload uploader i artifact;
                              LogError ("Error uploading artifact " +:+ dquote
                                          +:+ Path artifact +:+ dquote
                                          +:+ ": " +:+ err)])
          | None =>
              mkPool (<[i := set_State "finished" artifact]> (arts st))
                (<[i := PUpdate]> (pcs st)) (lock st) (errors st)
                (trace st ++ [EvUpload uploader i artifact])
          end
      | PLock err ph =>
          match lock st with
          | None =>
              mkPool (arts st) (<[i := PAppend err ph]> (pcs st)) (Some i)
                (errors st) (trace st ++ [EvLock i])
          | Some _ => st   (* [p.Lock()] blocks *)
          end
      | PAppend err ph =>
          mkPool (arts st) (<[i := PUnlock err ph]> (pcs st)) (lock st)
            (errors st ++ [err]) (trace st ++ [EvAppend i err])
      | PUnlock err ph =>
          mkPool (arts st)
            (<[i := match ph with AfterUpload => PUpdate | AfterUpdate => PDone end]>
               (pcs st))
            None (errors st) (trace st ++ [EvUnlock i])
      | PUpdate =>
          match Artifact_Update w i artifact with
          | Some err =>
              mkPool (arts st) (<[i := PLock err AfterUpdate]> (pcs st))
                (lock st) (errors st)
                (trace st ++ [EvUpdate i artifact;
                              LogError ("Error marking artifact "
                                          +:+ Path artifact
                                          +:+ " as uploaded: " +:+ err)])
          | None =>
              mkPool (arts st) (<[i := PDone]> (pcs st)) (lock st)
                (errors st) (trace st ++ [EvUpdate i artifact])
          end
      | PDone => st
      end
  | _, _ => st
  end.

(** One turn of the loop that spawns a task per artifact. *)
Definition main_step (st : Pool) : Pool :=
  if decide (length (pcs st) < length (arts st)) then
    mkPool (arts st) (pcs st ++ [PStart]) (lock st) (errors st)
      (trace st ++ [EvSpawn (length (pcs st))])
  else st.

Definition pool_step (c : Choice) (st : Pool) : Pool :=
  match c with
  | Main => main_step st
  | Task i => task_step i st
  end.

(** Modelled from the spec: the pool runs the spawned tasks side by side;
    [sched] says who moves at each step (a choice that cannot move leaves
    the state as it is).  Every interleaving of the steps is some [sched],
    whatever the bound on the number of tasks running at once. *)
Fixpoint pool_run (sched : list Choice) (st : Pool) : Pool :=
  match sched with
  | [] => st
  | c :: sched' => pool_run sched' (pool_step c st)
  end.

(** Modelled from the spec: [p.Wait()] returns when every spawned task
    has completed.  Once [sched] is used up, what is left runs in this
    order: the remaining tasks are spawned, the holder of the lock runs to
    its end, and then the other tasks do, one after the other (a task has
    at most nine steps). *)
Definition rest_schedule (st : Pool) : list Choice :=
  replicate (length (arts st)) Main
  ++ match lock st with Some i => replicate 9 (Task i) | None => [] end
  ++ flat_map (λ i, replicate 9 (Task i)) (seq 0 (length (arts st))).

Definition pool_complete (sched : list Choice) (st : Pool) : Pool :=
  let st' := pool_run sched st in
  pool_run (rest_schedule st') st'.

End Pool.

(** *** Upload *)

(** The first block of [upload]: which [Uploader] to use. *)
Definition choose_uploader (destination : string) : UploaderKind + error :=
  if decide (destination ≠ "") then
    if strings_HasPrefix destination "s3://" then inl S3Uploader
    else inr ("Unknown upload destination: " +:+ destination)
  else inl FormUploader.

(** The loop that sets the URLs. *)
Definition assign_URLs (w : World) (uploader : UploaderKind)
    (artifacts : list Artifact) : list Artifact :=
  (λ artifact, set_URL (Uploader_URL w uploader artifact) artifact) <$> artifacts.

Definition URL_events (uploader : UploaderKind) (artifacts : list Artifact)
  : list Event :=
  imap (EvURL uploader) artifacts.

Definition upload_failed : string :=
  "There were errors with uploading some of the artifacts".

(** [ArtifactUploader.upload(artifacts)].  The result is what the call
    does to its caller, the artifacts behind the pointers afterwards, and
    the trace.  [logger.Fatal] is taken to end the process as [log.Fatal]
    does. *)
Definition upload (w : World) (a : ArtifactUploader) (sched : list Choice)
    (artifacts : list Artifact)
  : Res (option error) * list Artifact * list Event :=
  match choose_uploader (Destination a) with
  | inr err => (Val (Some err), artifacts, [])
  | inl uploader =>
      let tr := [EvSetup uploader (Destination a)] in
      match Uploader_Setup w uploader (Destination a) with
      | Some err => (Val (Some err), artifacts, tr)
      | None =>
          let tr := tr ++ URL_events uploader artifacts in
          let artifacts := assign_URLs w uploader artifacts in
          let tr := tr ++ [EvCreate (Uploader_API a) (JobID a) artifacts] in
          match Batch_Create w (Uploader_API a) (JobID a) artifacts with
          | Some err => (Val (Some err), artifacts, tr)
          | None =>
              let st := pool_complete w uploader sched
                          (mkPool artifacts [] None [] tr) in
              let tr := trace st ++ [EvWait] in
              if decide (0 < length (errors st)) then
                (Exit, arts st, tr ++ [LogFatal upload_failed])
              else (Val None, arts st, tr)
          end
      end
  end.

(** [ArtifactUploader.Upload()] *)
Definition Upload (w : World) (a : ArtifactUploader) (sched : list Choice)
  : Res (option error) * list Artifact * list Event :=
  match collect w a with
  | (Val (artifacts, Some err), tr) => (Val (Some err), artifacts, tr)
  | (Val (artifacts, None), tr) =>
      if decide (length artifacts = 0) then
        (Val None, artifacts,
         tr ++ [LogInfo ("No files matched paths: " +:+ Paths a)])
      else
        let tr := tr ++ [LogInfo ("Found " +:+ sprintf_d (Z.of_nat (length artifacts))
                                    +:+ " files that match " +:+ dquote
                                    +:+ Paths a +:+ dquote)] in
        let '(res, artifacts, tr') := upload w a sched artifacts in
        (res, artifacts, tr ++ tr')
  | (Exit, tr) => (Exit, [], tr)
  | (Panic, tr) => (Panic, [], tr)
  end.

(** *** Reading a trace *)

(** The task an event belongs to. *)
Definition owner (ev : Event) : option nat :=
  match ev with
  | EvSpawn i | EvUpload _ i _ | EvLock i | EvAppend i _ | EvUnlock i
  | EvUpdate i _ => Some i
  | _ => None
  end.

(** What task [i] did, in the order it did it. *)
Definition task_view (i : nat) (tr : list Event) : list Event :=
  filter (λ ev, owner ev = Some i) tr.

(** Recording an error: the three steps around [errors = append(errors, err)]. *)
Definition record (i : nat) (r : option error) : list Event :=
  match r with
  | Some err => [EvLock i; EvAppend i err; EvUnlock i]
  | None => []
  end.

(** The errors appended to the shared slice, in order. *)
Fixpoint appended (tr : list Event) : list error :=
  match tr with
  | [] => []
  | EvAppend _ err :: tr' => err :: appended tr'
  | _ :: tr' => appended tr'
  end.

(** Replaying the lock: from lock state [l], the trace takes the lock only
    when it is free, and appends and releases only while the same task
    holds it.  The result is the lock state at the end. *)
Fixpoint lock_replay (tr : list Event) (l : option nat) : option (option nat) :=
  match tr with
  | [] => Some l
  | EvLock i :: tr' =>
      match l with None => lock_replay tr' (Some i) | Some _ => None end
  | EvAppend i _ :: tr' =>
      if decide (l = Some i) then lock_replay tr' l else None
  | EvUnlock i :: tr' =>
      if decide (l = Some i) then lock_replay tr' None else None
  | _ :: tr' => lock_replay tr' l
  end.

(** Events of the worker pool: a task is submitted, a file is uploaded, an
    artifact's state is pushed. *)
Definition is_pool_event (ev : Event) : bool :=
  match ev with
  | EvSpawn _ | EvUpload _ _ _ | EvUpdate _ _ => true
  | _ => false
  end.

(** Anything but a log line. *)
Definition is_log (ev : Event) : bool :=
  match ev with
  | LogDebug _ | LogInfo _ | LogError _ | LogFatal _ => true
  | _ => false
  end.

(** The state an upload attempt leaves an artifact in. *)
Definition uploaded_state (r : option error) : string :=
  match r with Some _ => "error" | None => "finished" end.

(** What is known of task [i], whose artifact was [a0] when the pool
    started, from where it is: the artifact behind the pointer and what
    the task did so far. *)
Definition task_at (w : World) (uploader : UploaderKind) (i : nat)
    (a0 : Artifact) (pc : PC) (now : option Artifact) (view : list Event)
  : Prop :=
  let ru := Uploader_Upload w uploader i a0 in
  let a1 := set_State (uploaded_state ru) a0 in
  let rp := Artifact_Update w i a1 in
  let up := [EvSpawn i; EvUpload uploader i a0] in
  match pc with
  | PStart | PUpload => now = Some a0 ∧ view = [EvSpawn i]
  | PLock err AfterUpload =>
      ru = Some err ∧ now = Some a1 ∧ view = up
  | PAppend err AfterUpload =>
      ru = Some err ∧ now = Some a1 ∧ view = up ++ [EvLock i]
  | PUnlock err AfterUpload =>
      ru = Some err ∧ now = Some a1 ∧ view = up ++ [EvLock i; EvAppend i err]
  | PUpdate => now = Some a1 ∧ view = up ++ record i ru
  | PLock err AfterUpdate =>
      rp = Some err ∧ now = Some a1
      ∧ view = up ++ record i ru ++ [EvUpdate i a1]
  | PAppend err AfterUpdate =>
      rp = Some err ∧ now = Some a1
      ∧ view = up ++ record i ru ++ [EvUpdate i a1; EvLock i]
  | PUnlock err AfterUpdate =>
      rp = Some err ∧ now = Some a1
      ∧ view = up ++ record i ru ++ [EvUpdate i a1; EvLock i; EvAppend i err]
  | PDone =>
      now = Some a1
      ∧ view = up ++ record i ru ++ [EvUpdate i a1] ++ record i rp
  end.

(** How many steps a task has left at most. *)
Definition steps_left (pc : PC) : nat :=
  match pc with
  | PStart => 9
  | PUpload => 8
  | PLock _ AfterUpload => 7
  | PAppend _ AfterUpload => 6
  | PUnlock _ AfterUpload => 5
  | PUpdate => 4
  | PLock _ AfterUpdate => 3
  | PAppend _ AfterUpdate => 2
  | PUnlock _ AfterUpdate => 1
  | PDone => 0
  end.

(** What holds of the pool at every moment, for the artifacts [arts0] it
    was started with. *)
Record pool_inv (w : World) (uploader : UploaderKind)
    (arts0 : list Artifact) (st : Pool) : Prop := mkPoolInv {
  inv_length : length (arts st) = length arts0;
  inv_spawned : (length (pcs st) ≤ length arts0)%nat;
  inv_task : ∀ i a0,
    arts0 !! i = Some a0 →
    match pcs st !! i with
    | Some pc =>
        task_at w uploader i a0 pc (arts st !! i) (task_view i (trace st))
    | None => arts st !! i = Some a0 ∧ task_view i (trace st) = []
    end;
  inv_lock_holder : ∀ i,
    lock st = Some i →
    ∃ pc, pcs st !! i = Some pc ∧ in_critical_section pc = true;
  inv_lock_free : ∀ i pc,
    pcs st !! i = Some pc → in_critical_section pc = true → lock st = Some i;
  inv_errors : errors st = appended (trace st);
  inv_replay : lock_replay (trace st) None = Some (lock st)
}.

(** *** Sample runs *)

Definition sample_uploader : ArtifactUploader :=
  mkArtifactUploader "job-1" "*.log; ;sub/*.log" "s3://bucket/path"
    (APIClient "https://agent.example").

(** A working directory [/work]; [files] are the matches of a pattern,
    [stat] and [copy] answer [os.Stat] and [io.Copy], [up] is the result
    of the upload of artifact [i]. *)
Definition sample_world (files : string → list string)
    (stat : string → FileInfo + error) (copy : string → string * option error)
    (up : nat → option error) : World :=
  mkWorld "/work" "/"%char
    (λ _ pattern, inl (files pattern))
    (λ file, inl ("/work/" +:+ file))
    stat
    (λ path, inl path)
    (λ path, inl (mkFileInfo false (Z.of_nat (String.length path))))
    copy
    (λ bytes, "sha1:" +:+ bytes)
    (λ _ _, None)
    (λ _ artifact, "https://uploads.example/" +:+ Path artifact)
    (λ _ _ _, None)
    (λ _ i _, up i)
    (λ _ _, None).

Definition sample_files (pattern : string) : list string :=
  if decide (pattern = "*.log") then ["a.log"; "b.log"; "old.log"]
  else if decide (pattern = "sub/*.log") then ["sub/c.log"]
  else [].

Definition sample_stat (path : string) : FileInfo + error :=
  inl (mkFileInfo (bool_decide (path = "/work/old.log")) 0).

Definition sample_copy (path : string) : string * option error :=
  ("contents of " +:+ path, None).

(** Three files and a directory match; the upload of the second artifact
    fails. *)
Definition one_upload_fails : World :=
  sample_world sample_files sample_stat sample_copy
    (λ i, if decide (i = 1) then Some "connection reset" else None).

(** Nothing matches. *)
Definition nothing_matches : World :=
  sample_world (λ _, []) sample_stat sample_copy (λ _, None).

(** [a.log] is a dangling symbolic link: the pattern matches it and
    [os.Stat] fails on it. *)
Definition dangling_link : World :=
  sample_world sample_files
    (λ path, if decide (path = "/work/a.log")
             then inr "stat /work/a.log: no such file or directory"
             else sample_stat path)
    sample_copy (λ _, None).

(** Reading [b.log] fails after the first four bytes. *)
Definition read_error : World :=
  sample_world sample_files sample_stat
    (λ path, if decide (path = "/work/b.log")
             then ("cont", Some "read /work/b.log: input/output error")
             else sample_copy path)
    (λ _, None).

(** The manifest collected in the first sample world. *)
Definition sample_manifest : list Artifact :=
  match (collect one_upload_fails sample_uploader).1 with
  | Val (artifacts, _) => artifacts
  | _ => []
  end.

(** A schedule that lets the three tasks run into each other. *)
Definition sample_schedule : list Choice :=
  [Main; Task 0; Main; Task 1; Task 0; Task 1; Main; Task 2; Task 1; Task 2;
   Task 1; Task 0; Task 2; Task 1].

(** *** More ways to read a manifest and a trace *)

(** What [collect] makes of a file: an artifact in state "new", without a
    URL, for the uploader's job and API, found by one of the patterns of
    [Paths], which is not a directory, whose size is that of the opened
    file and whose checksum is that of the bytes copied from it. *)
Definition collected (w : World) (a : ArtifactUploader) (artifact : Artifact)
  : Prop :=
  State artifact = "new"
  ∧ URL artifact = ""
  ∧ Artifact_JobID artifact = JobID a
  ∧ Artifact_API artifact = Uploader_API a
  ∧ GlobPath artifact ≠ ""
  ∧ GlobPath artifact ∈ strings_TrimSpace <$> strings_Split (Paths a) ";"%char
  ∧ (∃ fileInfo, Stat w (AbsolutePath artifact) = inl fileInfo
                 ∧ IsDir fileInfo = false)
  ∧ ∃ file fileInfo,
      Open w (AbsolutePath artifact) = inl file
      ∧ File_Stat w file = inl fileInfo
      ∧ FileSize artifact = Size fileInfo
      ∧ Sha1Sum artifact = Sha1Hex w (Copy w file).1.

(** What the pool writes to the trace when [n] tasks were spawned: log
    lines, and events of these tasks. *)
Definition pool_made (n : nat) (ev : Event) : Prop :=
  match owner ev with
  | Some i => i < n
  | None => is_log ev = true
  end.

Definition is_EvSetup (ev : Event) : bool :=
  match ev with EvSetup _ _ => true | _ => false end.
Definition is_EvCreate (ev : Event) : bool :=
  match ev with EvCreate _ _ _ => true | _ => false end.

(** The pool as [upload] starts it. *)
Definition pool_start (w : World) (a : ArtifactUploader)
    (uploader : UploaderKind) (artifacts : list Artifact) : Pool :=
  mkPool (assign_URLs w uploader artifacts) [] None []
    (EvSetup uploader (Destination a)
     :: URL_events uploader artifacts
     ++ [EvCreate (Uploader_API a) (JobID a)
           (assign_URLs w uploader artifacts)]).

(** The artifact that [upload] leaves behind pointer [i]. *)
Definition uploaded (w : World) (uploader : UploaderKind) (i : nat)
    (artifact : Artifact) : Artifact :=
  let a0 := set_URL (Uploader_URL w uploader artifact) artifact in
  set_State (uploaded_state (Uploader_Upload w uploader i a0)) a0.

(** The manifest is registered when [upload] is called with it. *)
Definition registers (w : World) (a : ArtifactUploader)
    (uploader : UploaderKind) (artifacts : list Artifact) : Prop :=
  choose_uploader (Destination a) = inl uploader
  ∧ Uploader_Setup w uploader (Destination a) = None
  ∧ Batch_Create w (Uploader_API a) (JobID a)
      (assign_URLs w uploader artifacts) = None.

(** A world in which the registration is refused. *)
Definition registration_refused : World :=
  mkWorld "/work" "/"%char
    (λ _ pattern, inl (sample_files pattern))
    (λ file, inl ("/work/" +:+ file))
    sample_stat
    (λ path, inl path)
    (λ path, inl (mkFileInfo false (Z.of_nat (String.length path))))
    sample_copy
    (λ bytes, "sha1:" +:+ bytes)
    (λ _ _, None)
    (λ _ artifact, "https://uploads.example/" +:+ Path artifact)
    (λ _ _ _, Some "422 Unprocessable Entity")
    (λ _ _ _, None)
    (λ _ _, None).

(** The errors that the task of artifact [i] meets: that of the upload and
    that of the push that follows it. *)
Definition task_errors (w : World) (uploader : UploaderKind) (i : nat)
    (artifact : Artifact) : list error :=
  let a0 := set_URL (Uploader_URL w uploader artifact) artifact in
  option_list (Uploader_Upload w uploader i a0)
  ++ option_list (Artifact_Update w i (uploaded w uploader i artifact)).

(** The errors met by the tasks of a manifest, in the order of the
    manifest. *)
Definition all_errors (w : World) (uploader : UploaderKind)
    (artifacts : list Artifact) : list error :=
  concat (imap (task_errors w uploader) artifacts).

(** What [upload] does to its caller once the manifest is registered. *)
Definition outcome (errs : list error) : Res (option error) :=
  if decide (errs = []) then Val None else Exit.

(** A world in which [b.log] cannot be opened. *)
Definition unreadable_file : World :=
  mkWorld "/work" "/"%char
    (λ _ pattern, inl (sample_files pattern))
    (λ file, inl ("/work/" +:+ file))
    sample_stat
    (λ path, if decide (path = "/work/b.log")
             then inr "open /work/b.log: permission denied" else inl path)
    (λ path, inl (mkFileInfo false (Z.of_nat (String.length path))))
    sample_copy
    (λ bytes, "sha1:" +:+ bytes)
    (λ _ _, None)
    (λ _ artifact, "https://uploads.example/" +:+ Path artifact)
    (λ _ _ _, None)
    (λ _ _ _, None)
    (λ _ _, None).

(** A world in which every upload and every push succeeds. *)
Definition all_succeed : World :=
  sample_world sample_files sample_stat sample_copy (λ _, None).

End Buildkite.
(** ** Facts about the formatting of integers *)

Lemma pretty_N_go_length (x : N) (s : string) :
  (String.length s ≤ String.length (pretty_N_go x s))%nat.
Proof.
  revert s. induction (N.lt_wf_0 x) as [x _ IH]; intros s.
  destruct (decide (x = 0%N)) as [->|Hx].
  - by rewrite pretty_N_go_0.
  - rewrite pretty_N_go_step by lia.
    etrans; [|apply IH; apply N.div_lt; lia]. simpl. lia.
Qed.

Lemma pretty_positive_nonempty (p : positive) : pretty p ≠ "".
Proof.
  unfold pretty, pretty_positive, pretty, pretty_N.
  case_decide; [done|].
  rewrite pretty_N_go_step by lia.
  intros Heq.
  pose proof (pretty_N_go_length (N.pos p `div` 10)
    (String (pretty_N_char (N.pos p `mod` 10)) "")) as Hlen.
  rewrite Heq in Hlen. simpl in Hlen. lia.
Qed.

Lemma sprintf_d_nonempty (n : Z) : sprintf_d n ≠ "".
Proof.
  unfold sprintf_d, pretty, pretty_Z. destruct n as [|p|p]; [done| |done].
  apply pretty_positive_nonempty.
Qed.

(** ** Cutting a list in two places *)

Lemma app_eq_split {A} (l1 l2 pre post : list A) (a : A) :
  l1 ++ l2 = pre ++ a :: post →
  (∃ m, l1 = pre ++ a :: m ∧ post = m ++ l2)
  ∨ (∃ m, pre = l1 ++ m ∧ l2 = m ++ a :: post).
Proof.
  revert pre. induction l1 as [|b l1 IH]; intros pre Heq; simpl in *.
  - right. by exists pre.
  - destruct pre as [|c pre]; simplify_eq/=.
    + left. by exists l1.
    + destruct (IH _ H0) as [(m & -> & ->)|(m & -> & ->)]; eauto.
Qed.

Lemma app3_eq_split {A} (h R t pre post : list A) (a : A) :
  h ++ R ++ t = pre ++ a :: post →
  (∃ m, h = pre ++ a :: m)
  ∨ (∃ m1 m2, pre = h ++ m1 ∧ R = m1 ++ a :: m2 ∧ post = m2 ++ t)
  ∨ (∃ m, pre = h ++ R ++ m ∧ t = m ++ a :: post).
Proof.
  intros [(m & -> & _)|(m & -> & Heq)]%app_eq_split; [eauto|].
  apply app_eq_split in Heq as [(m2 & -> & ->)|(m2 & -> & ->)].
  - right; left. eauto.
  - right; right. eauto.
Qed.

(** ** The job engine *)

Module JobEngine.
Import Buildbox.

Section Ticking.
Context (w : World).

(** One callback tick, written out. *)
Lemma callback_run (p : Process) (s : Agent) :
  let j' := set_Output (Process_Output p) (job s) in
  let path := "jobs/" +:+ ID j' in
  let r := put w (puts s) path j' in
  callback w p s =
    match r.2 with
    | Some e =>
        (Exit, mkAgent j' (S (puts s)) (kill_requested s)
                 (trace s ++ [PutJob path j' r.1 (Some e); LogFatal e]))
    | None =>
        if decide (State r.1 = "canceled") then
          (Val (), mkAgent j' (S (puts s)) true
                     (trace s ++ [PutJob path j' r.1 None;
                                  LogPrintf ("Cancelling job #" +:+ ID j');
                                  Kill]))
        else
          (Val (), mkAgent j' (S (puts s)) (kill_requested s)
                     (trace s ++ [PutJob path j' r.1 None]))
    end.
Proof.
  unfold callback, mbind, M_bind, JobUpdate, update_job, get_job; simpl.
  destruct (put w (puts s) _ _) as [resp [e|]]; simpl.
  - unfold log_Fatal; simpl. by rewrite <-app_assoc.
  - case_decide; simpl; [|done].
    unfold log_Printf, emit, Process_Kill; simpl. by rewrite <-!app_assoc.
Qed.

(** One turn of the timer loop. *)
Lemma supervise_tick (cb : Process → M unit) (linger : nat)
    (out : string) (rest : list string) (left : option nat) (s : Agent) :
  left ≠ Some 0 →
  supervise cb linger (out :: rest) left s =
    match cb (mkProcess out 0) s with
    | (Val _, s') =>
        supervise cb linger rest
          match left with
          | Some n => Some (pred n)
          | None => if kill_requested s' then Some linger else None
          end s'
    | (Exit, s') => (Exit, s')
    | (Panic, s') => (Panic, s')
    end.
Proof.
  intros Hleft. destruct left as [[|n]|]; [done|..];
    simpl; unfold mbind, M_bind;
    by destruct (cb _ s) as [[[]| |] s'].
Qed.

Lemma supervise_run (linger : nat) (ticks : list string) :
  ∀ (left : option nat) (s : Agent),
    ∃ R x,
      ticks_trace (ID (job s)) R x
      ∧ trace (supervise (callback w) linger ticks left s).2 = trace s ++ R
      ∧ ID (job (supervise (callback w) linger ticks left s).2) = ID (job s)
      ∧ if x : bool
        then (supervise (callback w) linger ticks left s).1 = Exit
        else ∃ b, (supervise (callback w) linger ticks left s).1 = Val b.
Proof.
  induction ticks as [|out rest IH]; intros left s.
  - exists [], false. rewrite app_nil_r.
    destruct left as [[|n]|]; simpl; split_and!; eauto using ticks_trace.
  - destruct (decide (left = Some 0)) as [->|Hleft].
    { exists [], false. rewrite app_nil_r. simpl.
      split_and!; eauto using ticks_trace. }
    rewrite supervise_tick by done. rewrite callback_run.
    destruct (put w (puts s) _ _) as [resp [e|]] eqn:Hput; simpl.
    { eexists _, true. split_and!; [apply ticks_fatal|done..]. }
    case_decide as Hstate.
    + match goal with |- context [supervise _ _ _ ?l ?s'] =>
        destruct (IH l s') as (R & x & HR & Htr & Hid & Hres) end.
      simpl in *.
      eexists (_ :: _ :: _ :: R), x.
      split_and!; [by apply ticks_kill| |done..].
      rewrite Htr, <-app_assoc. done.
    + match goal with |- context [supervise _ _ _ ?l ?s'] =>
        destruct (IH l s') as (R & x & HR & Htr & Hid & Hres) end.
      simpl in *.
      eexists (_ :: R), x.
      split_and!; [by apply ticks_quiet| |done..].
      rewrite Htr, <-app_assoc. done.
Qed.

End Ticking.

(** *** The shape of a sequence of ticks *)

Lemma ticks_trace_at_put id R x pre path sent resp err post :
  ticks_trace id R x →
  R = pre ++ PutJob path sent resp err :: post →
  match err with
  | Some e => post = [LogFatal e] ∧ x = true
  | None =>
      (State resp = "canceled"
       ∧ ∃ post', post = LogPrintf ("Cancelling job #" +:+ id) :: Kill :: post'
                  ∧ ticks_trace id post' x)
      ∨ (State resp ≠ "canceled" ∧ ticks_trace id post x)
  end.
Proof.
  intros HR. revert pre.
  induction HR as [|path0 sent0 resp0 e0|path0 sent0 resp0 R x Hst HR IH
                   |path0 sent0 resp0 R x Hst HR IH]; intros pre Heq.
  - by destruct pre.
  - destruct pre as [|? [|? [|? pre]]]; simplify_eq/=. done.
  - destruct pre as [|? pre]; simplify_eq/=; [by right|].
    exact (IH _ eq_refl).
  - destruct pre as [|? [|? [|? pre]]]; simplify_eq/=;
      [|exact (IH _ eq_refl)].
    left. eauto.
Qed.

Lemma ticks_trace_at_kill id R x pre post :
  ticks_trace id R x →
  R = pre ++ Kill :: post →
  ∃ pre' path sent resp,
    pre = pre' ++ [PutJob path sent resp None;
                   LogPrintf ("Cancelling job #" +:+ id)]
    ∧ State resp = "canceled".
Proof.
  intros HR. revert pre.
  induction HR as [|path0 sent0 resp0 e0|path0 sent0 resp0 R x Hst HR IH
                   |path0 sent0 resp0 R x Hst HR IH]; intros pre Heq.
  - by destruct pre.
  - destruct pre as [|? [|? [|? pre]]]; simplify_eq/=.
  - destruct pre as [|? pre]; simplify_eq/=.
    destruct (IH _ eq_refl) as (pre' & ? & ? & ? & -> & ?).
    by eexists (_ :: pre'), _, _, _.
  - destruct pre as [|? [|? [|? pre]]]; simplify_eq/=.
    + by eexists [], _, _, _.
    + destruct (IH _ eq_refl) as (pre' & ? & ? & ? & -> & ?).
      by eexists (_ :: _ :: _ :: pre'), _, _, _.
Qed.

Lemma ticks_trace_inside id R x :
  ticks_trace id R x →
  existsb is_ScriptStart R = false ∧ existsb is_ScriptEnd R = false.
Proof. induction 1; naive_solver. Qed.

Lemma ticks_trace_fatal id R x :
  ticks_trace id R x → existsb is_LogFatal R = x.
Proof. induction 1; naive_solver. Qed.

(** A tick sequence starts with a push, so nothing of an earlier tick is
    left over in front of it. *)
Lemma tick_rest_ticks id R x tail :
  ticks_trace id R x →
  tick_rest tail = [] →
  tick_rest (R ++ tail) = [].
Proof. by destruct 1. Qed.

(** *** The shape of a whole run *)

Lemma run_launch_failure w j bs p e :
  script w (path_Dir w bs) (path_Base w bs) (Run_env j) = SpawnFails p e →
  let path := "jobs/" +:+ ID j in
  let j1 := set_StartedAt (clock_started w) j in
  let j2 := set_ExitStatus (sprintf_d (Process_ExitStatus p))
              (set_FinishedAt (clock_finished w) (set_Output e j1)) in
  run w j bs =
    (Val None,
     mkAgent j2 2 false
       [LogPrintf ("Starting job #" +:+ ID j);
        PutJob path j1 (put w 0 path j1).1 (put w 0 path j1).2;
        ScriptStart (path_Dir w bs) (path_Base w bs) (Run_env j);
        ScriptEnd p (Some e);
        PutJob path j2 (put w 1 path j2).1 (put w 1 path j2).2;
        LogPrintf ("Finished job #" +:+ ID j)]).
Proof.
  intros Hscript.
  unfold run, Run, RunScript, mbind, M_bind, JobUpdate, get_job, log_Printf,
    emit, update_job, mret, M_ret; simpl.
  rewrite Hscript. done.
Qed.

Lemma run_shape w j bs :
  let path := "jobs/" +:+ ID j in
  let j1 := set_StartedAt (clock_started w) j in
  ∃ R x tail,
    ticks_trace (ID j) R x
    ∧ trace (run w j bs).2 =
        [LogPrintf ("Starting job #" +:+ ID j);
         PutJob path j1 (put w 0 path j1).1 (put w 0 path j1).2;
         ScriptStart (path_Dir w bs) (path_Base w bs) (Run_env j)]
        ++ R ++ tail
    ∧ if x : bool
      then (run w j bs).1 = Exit ∧ tail = []
      else (run w j bs).1 = Val None
           ∧ ∃ p err resp err',
               tail = [ScriptEnd p err;
                       PutJob path (job (run w j bs).2) resp err';
                       LogPrintf ("Finished job #" +:+ ID j)].
Proof.
  intros path j1.
  destruct (script w (path_Dir w bs) (path_Base w bs) (Run_env j))
    as [p e|ticks exited linger killed] eqn:Hscript.
  { rewrite (run_launch_failure _ _ _ _ _ Hscript). simpl.
    exists [], false. eexists. split_and!; [constructor|done..|eauto]. }
  unfold run, Run, RunScript, mbind, M_bind, JobUpdate, get_job, log_Printf,
    emit, update_job, mret, M_ret; simpl.
  rewrite Hscript.
  match goal with |- context [supervise _ _ _ _ ?s] =>
    destruct (supervise_run w linger ticks None s)
      as (R & x & HR & Htr & Hid & Hres) end.
  simpl in *. exists R, x.
  destruct (supervise _ _ _ _ _) as [res s'] eqn:Hsup. simpl in *.
  destruct x.
  - subst res. exists []. by rewrite app_nil_r.
  - destruct Hres as [b ->]. simpl. eexists.
    split_and!; [done| |done|].
    + rewrite Htr. simpl. rewrite <-!app_assoc. simpl. done.
    + rewrite Hid. eauto.
Qed.

(** An event of a run that is neither one of the three opening events nor
    one of the three closing events belongs to a tick. *)
Lemma run_event_in_ticks w j bs pre ev post :
  trace (run w j bs).2 = pre ++ ev :: post →
  is_Kill ev = true ∨ (is_PutJob ev = true ∧ running pre = true) →
  ∃ R x tail preR postR,
    ticks_trace (ID j) R x
    ∧ R = preR ++ ev :: postR
    ∧ post = postR ++ tail
    ∧ running pre = true
    ∧ if x : bool
      then (run w j bs).1 = Exit ∧ tail = []
      else (run w j bs).1 = Val None ∧ tick_rest tail = [].
Proof.
  intros Htr Hev.
  destruct (run_shape w j bs) as (R & x & tail & HR & Hshape & Hres).
  rewrite Hshape in Htr.
  destruct (ticks_trace_inside _ _ _ HR) as [Hstart Hend].
  apply app3_eq_split in Htr as [(m & Hm)|[(m1 & m2 & -> & -> & ->)|(m & -> & Hm)]].
  - destruct pre as [|? [|? [|? pre]]]; simplify_eq/=;
      try (by destruct Hev as [?|[? ?]]).
    by destruct pre.
  - exists (m1 ++ ev :: m2), x, tail, m1, m2. split_and!; [done..| |].
    + rewrite existsb_app in Hend. apply orb_false_elim in Hend as [Hend _].
      unfold running. by rewrite !existsb_app, Hend.
    + destruct x; [done|]. destruct Hres as [? (? & ? & ? & ? & ->)]. done.
  - destruct x.
    + destruct Hres as [_ ->]. by destruct m.
    + destruct Hres as [_ (p & err & resp & err' & ->)].
      destruct m as [|? [|? [|? m]]]; simplify_eq/=.
      * by destruct Hev as [?|[? ?]].
      * destruct Hev as [?|[_ Hrun]]; [done|].
        unfold running in Hrun. simpl in Hrun.
        rewrite !existsb_app in Hrun. simpl in Hrun.
        by rewrite ?orb_true_r, ?andb_false_r in Hrun.
      * by destruct Hev as [?|[? ?]].
      * by destruct m.
Qed.

(** *** Cancellation *)

(** C1. In the running phase, the tick whose status push is answered
    without error and with [State = "canceled"] calls [Kill] before the
    tick is over, and no other tick calls [Kill]: the rest of a tick
    contains a [Kill] exactly when its push succeeded and reported
    "canceled".  Every [Kill] of a run happens in the running phase, that
    is, before [RunScript] returns and the job is finalized. *)
Theorem cancel_kills_within_tick w j bs pre path sent resp err post :
  trace (run w j bs).2 = pre ++ PutJob path sent resp err :: post →
  running pre = true →
  (existsb is_Kill (tick_rest post) = true
     ↔ err = None ∧ State resp = "canceled")
  ∧ (∀ pre' post',
       trace (run w j bs).2 = pre' ++ Kill :: post' → running pre' = true).
Proof.
  intros Htr Hrun. split.
  - destruct (run_event_in_ticks w j bs _ _ _ Htr)
      as (R & x & tail & preR & postR & HR & HeqR & -> & _ & Hres);
      [by right|].
    pose proof (ticks_trace_at_put _ _ _ _ _ _ _ _ _ HR HeqR) as Hput.
    destruct err as [e|].
    + destruct Hput as [-> ->]. destruct Hres as [_ ->]. simpl.
      split; [done|]. by intros [? _].
    + destruct Hput as [[Hst (post' & -> & _)]|[Hst Hpost]].
      * simpl. done.
      * rewrite (tick_rest_ticks _ _ _ _ Hpost) by (by destruct x, Hres as [? ->]).
        simpl. split; [done|]. by intros [_ ?].
  - intros pre' post' Htr'.
    by destruct (run_event_in_ticks w j bs _ _ _ Htr')
      as (_ & _ & _ & _ & _ & _ & _ & _ & ? & _); [left|].
Qed.

Lemma cancel_kills_within_tick_witness :
  let tr := trace (run canceling_world sample_job "/etc/agent/bootstrap.sh").2 in
  running (take 4 tr) = true
  ∧ existsb is_Kill (tick_rest (drop 5 tr)) = true
  ∧ running (take 6 tr) = true.
Proof.
  intros tr.
  epose proof (cancel_kills_within_tick canceling_world sample_job
    "/etc/agent/bootstrap.sh" (take 4 tr) _ _ _ _ (drop 5 tr)) as H.
  destruct H as [[_ Hkill] Hphase].
  - vm_compute. reflexivity.
  - vm_compute. reflexivity.
  - split_and!.
    + vm_compute. reflexivity.
    + apply Hkill. vm_compute. split; reflexivity.
    + apply (Hphase _ (drop 7 tr)). vm_compute. reflexivity.
Defined.

(** *** A broken control channel *)

(** C7. A status push that fails in the running phase ends the agent
    process: the only thing that still happens is [log.Fatal] with the
    error of the push (no kill, no further tick, no final update), and
    [Run] does not return. *)
Theorem running_push_failure_is_fatal w j bs pre path sent resp e post :
  trace (run w j bs).2 = pre ++ PutJob path sent resp (Some e) :: post →
  running pre = true →
  (run w j bs).1 = Exit ∧ post = [LogFatal e].
Proof.
  intros Htr Hrun.
  destruct (run_event_in_ticks w j bs _ _ _ Htr)
    as (R & x & tail & preR & postR & HR & HeqR & -> & _ & Hres);
    [by right|].
  destruct (ticks_trace_at_put _ _ _ _ _ _ _ _ _ HR HeqR) as [-> ->].
  by destruct Hres as [-> ->].
Qed.

Lemma running_push_failure_is_fatal_witness :
  let r := run broken_channel_world sample_job "/etc/agent/bootstrap.sh" in
  running (take 4 (trace r.2)) = true
  ∧ r.1 = Exit
  ∧ drop 5 (trace r.2) = [LogFatal "connection refused"].
Proof.
  intros r.
  epose proof (running_push_failure_is_fatal broken_channel_world sample_job
    "/etc/agent/bootstrap.sh" (take 4 (trace r.2)) _ _ _ _
    (drop 5 (trace r.2))) as H.
  destruct H as [Hexit Hpost].
  - vm_compute. reflexivity.
  - vm_compute. reflexivity.
  - split_and!; [vm_compute; reflexivity|exact Hexit|exact Hpost].
Defined.

(** *** The result of [Run] *)

(** C9. The error [Run] returns is nil, whatever the client, the script
    and the process do: a run in which [log.Fatal] was not reached returns
    nil (also after a failed launch and after a kill), and a run in which
    it was reached ends the process without returning anything. *)
Theorem Run_returns_nil w j bs :
  (run w j bs).1 =
    if existsb is_LogFatal (trace (run w j bs).2) then Exit else Val None.
Proof.
  destruct (run_shape w j bs) as (R & x & tail & HR & -> & Hres).
  rewrite !existsb_app. simpl.
  rewrite (ticks_trace_fatal _ _ _ HR).
  destruct x.
  - by destruct Hres as [-> _].
  - by destruct Hres as [-> (? & ? & ? & ? & ->)].
Qed.

(** *** A script that cannot be launched *)

(** C4, as the design document has it, fails: the sample run leaves
    [ExitStatus] set to "1". *)
Lemma launch_failure_as_documented_fails :
  ¬ launch_failure_as_documented no_launch_world sample_job
      "/etc/agent/bootstrap.sh".
Proof.
  intros H.
  destruct (H (mkProcess "" 1) "fork/exec bootstrap.sh: permission denied"
              eq_refl) as (_ & _ & Hstatus & _).
  vm_compute in Hstatus. discriminate Hstatus.
Qed.

(** C4, amended. When the script cannot be launched, no callback fires
    and [Run] still finalizes the job and returns nil: [Output] is the text
    of the launch error, [FinishedAt] is stamped, [ExitStatus] is the
    decimal rendering of the exit status of the process value that came
    back with the error (so it is present, not absent), and this job is
    pushed to the server in a last update. *)
Theorem launch_failure_finalizes w j bs p e :
  script w (path_Dir w bs) (path_Base w bs) (Run_env j) = SpawnFails p e →
  let r := run w j bs in
  r.1 = Val None
  ∧ Output (job r.2) = e
  ∧ ExitStatus (job r.2) = sprintf_d (Process_ExitStatus p)
  ∧ ExitStatus (job r.2) ≠ ""
  ∧ FinishedAt (job r.2) = clock_finished w
  ∧ ∃ path started resp0 err0 resp1 err1,
      trace r.2 =
        [LogPrintf ("Starting job #" +:+ ID j);
         PutJob path started resp0 err0;
         ScriptStart (path_Dir w bs) (path_Base w bs) (Run_env j);
         ScriptEnd p (Some e);
         PutJob path (job r.2) resp1 err1;
         LogPrintf ("Finished job #" +:+ ID j)].
Proof.
  intros Hscript r. subst r. rewrite (run_launch_failure _ _ _ _ _ Hscript).
  simpl. split_and!; [done..|apply sprintf_d_nonempty|done|].
  by eexists _, _, _, _, _, _.
Qed.

Lemma launch_failure_finalizes_witness :
  let r := run no_launch_world sample_job "/etc/agent/bootstrap.sh" in
  r.1 = Val None
  ∧ Output (job r.2) = "fork/exec bootstrap.sh: permission denied"
  ∧ ExitStatus (job r.2) = "1"
  ∧ FinishedAt (job r.2) = "2014-05-01T10:00:05Z".
Proof.
  intros r.
  destruct (launch_failure_finalizes no_launch_world sample_job
    "/etc/agent/bootstrap.sh" (mkProcess "" 1)
    "fork/exec bootstrap.sh: permission denied" eq_refl)
    as (Hres & Hout & Hstatus & _ & Hfin & _).
  split_and!; [exact Hres|exact Hout|exact Hstatus|exact Hfin].
Defined.

(** *** The first push *)

(** C8, as the design document has it, fails: in the sample run the first
    push fails and the script is started right after it, with nothing
    logged in between. *)
Lemma started_push_failure_logged_fails :
  ¬ started_push_failure_logged late_server_world sample_job
      "/etc/agent/bootstrap.sh".
Proof.
  intros H.
  epose proof (H [LogPrintf "Starting job #7"] _ _ _ _ _) as Hlog.
  destruct Hlog as (mid & dir & name & env & rest & Hpost & Hmid).
  - vm_compute. reflexivity.
  - reflexivity.
  - destruct mid as [|ev mid]; [discriminate Hmid|].
    vm_compute in Hpost. injection Hpost as Hev Hrest. subst ev.
    simpl in Hmid.
    assert (Hno : ∀ l1 l2 dir name env,
      existsb is_log l1 = true →
      l1 ++ ScriptStart dir name env :: l2 ≠ drop 3 (trace
        (run late_server_world sample_job "/etc/agent/bootstrap.sh").2)).
    { vm_compute. intros l1 l2 d n v Hl Heq.
      repeat (destruct l1 as [|? l1]; simplify_eq/=). }
    by eapply Hno.
Qed.

(** C8, amended. The first push is best-effort: when it fails its error
    is dropped; nothing is logged about it, and the very next thing [Run]
    does is to launch the script. *)
Theorem started_push_failure_ignored w j bs e :
  (put w 0 ("jobs/" +:+ ID j) (set_StartedAt (clock_started w) j)).2 = Some e →
  ∃ resp rest,
    trace (run w j bs).2 =
      LogPrintf ("Starting job #" +:+ ID j)
      :: PutJob ("jobs/" +:+ ID j) (set_StartedAt (clock_started w) j)
           resp (Some e)
      :: ScriptStart (path_Dir w bs) (path_Base w bs) (Run_env j)
      :: rest.
Proof.
  intros Hput.
  destruct (run_shape w j bs) as (R & x & tail & _ & -> & _).
  rewrite Hput. simpl. eauto.
Qed.

Lemma started_push_failure_ignored_witness :
  ∃ resp rest,
    trace (run late_server_world sample_job "/etc/agent/bootstrap.sh").2 =
      LogPrintf "Starting job #7"
      :: PutJob "jobs/7" (set_StartedAt "2014-05-01T10:00:00Z" sample_job)
           resp (Some "connection refused")
      :: ScriptStart "/etc/agent" "bootstrap.sh" ["CI=true"]
      :: rest.
Proof.
  exact (started_push_failure_ignored late_server_world sample_job
           "/etc/agent/bootstrap.sh" "connection refused" eq_refl).
Defined.

(** *** What a run pushes *)

Lemma set_Output_twice out out' j :
  set_Output out' (set_Output out j) = set_Output out' j.
Proof. done. Qed.

Lemma pushes_app tr tr' : pushes (tr ++ tr') = pushes tr ++ pushes tr'.
Proof.
  induction tr as [|ev tr IH]; [done|]. destruct ev; simpl; by rewrite ?IH.
Qed.

Lemma push_of_set_Output out j ev :
  push_of (set_Output out j) ev → push_of j ev.
Proof.
  destruct ev as [| |path sent resp err| | |]; try done. simpl.
  intros [-> Heq]. split; [done|].
  destruct sent, j; simpl in *. by simplify_eq.
Qed.

(** The ticks push the job with the snapshots as output, one snapshot
    after the other, and change nothing else of the job. *)
Lemma supervise_pushes w (linger : nat) (ticks : list string) :
  ∀ (left : option nat) (s : Agent),
    ∃ R m,
      trace (supervise (callback w) linger ticks left s).2 = trace s ++ R
      ∧ pushes R = (λ out, set_Output out (job s)) <$> take m ticks
      ∧ Forall (push_of (job s)) R
      ∧ set_Output (Output (job s))
          (job (supervise (callback w) linger ticks left s).2) = job s.
Proof.
  induction ticks as [|out rest IH]; intros left s.
  - exists [], 0. rewrite app_nil_r.
    destruct left as [[|n]|]; simpl; split_and!; try done; by destruct (job s).
  - destruct (decide (left = Some 0)) as [->|Hleft].
    { exists [], 0. rewrite app_nil_r. simpl. split_and!; try done.
      by destruct (job s). }
    rewrite supervise_tick by done. rewrite callback_run.
    assert (push_of (job s)
              (PutJob ("jobs/" +:+ ID (job s))
                 (set_Output out (job s))
                 (put w (puts s) ("jobs/" +:+ ID (job s))
                    (set_Output out (job s))).1 None)) as Hpush.
    { split; [done|]. by destruct (job s). }
    destruct (put w (puts s) _ _) as [resp [e|]] eqn:Hput; simpl.
    { eexists _, 1. split_and!; [done|done| |by destruct (job s)].
      apply List.Forall_cons; [|by apply List.Forall_cons].
      split; [done|]. by destruct (job s). }
    case_decide as Hstate.
    + match goal with |- context [supervise _ _ _ ?l ?s'] =>
        destruct (IH l s') as (R & m & Htr & Hp & Hall & Hjob) end.
      simpl in *.
      eexists (_ :: _ :: _ :: R), (S m).
      split_and!.
      * by rewrite Htr, <-app_assoc.
      * simpl. by rewrite Hp.
      * repeat (apply List.Forall_cons; [done|]).
        eapply Forall_impl; [exact Hall|]. apply push_of_set_Output.
      * rewrite <-(set_Output_twice out), Hjob. by destruct (job s).
    + match goal with |- context [supervise _ _ _ ?l ?s'] =>
        destruct (IH l s') as (R & m & Htr & Hp & Hall & Hjob) end.
      simpl in *.
      eexists (_ :: R), (S m).
      split_and!.
      * by rewrite Htr, <-app_assoc.
      * simpl. by rewrite Hp.
      * apply List.Forall_cons; [done|].
        eapply Forall_impl; [exact Hall|]. apply push_of_set_Output.
      * rewrite <-(set_Output_twice out), Hjob. by destruct (job s).
Qed.

(** A run whose script starts, in terms of its ticks. *)
Lemma run_spawns w j bs ticks exited linger killed :
  script w (path_Dir w bs) (path_Base w bs) (Run_env j)
    = Spawns ticks exited linger killed →
  let path := "jobs/" +:+ ID j in
  let j1 := set_StartedAt (clock_started w) j in
  let s0 := mkAgent j1 1 false
              [LogPrintf ("Starting job #" +:+ ID j);
               PutJob path j1 (put w 0 path j1).1 (put w 0 path j1).2;
               ScriptStart (path_Dir w bs) (path_Base w bs) (Run_env j)] in
  let sup := supervise (callback w) linger ticks None s0 in
  run w j bs =
    match sup.1 with
    | Val was_killed =>
        let p := if was_killed : bool then killed else exited in
        let jf := set_ExitStatus (sprintf_d (Process_ExitStatus p))
                    (set_FinishedAt (clock_finished w)
                       (set_Output (Process_Output p) (job sup.2))) in
        let pathf := "jobs/" +:+ ID (job sup.2) in
        (Val None,
         mkAgent jf (S (puts sup.2)) (kill_requested sup.2)
           (trace sup.2
            ++ [ScriptEnd p None;
                PutJob pathf jf (put w (puts sup.2) pathf jf).1
                  (put w (puts sup.2) pathf jf).2;
                LogPrintf ("Finished job #" +:+ ID (job sup.2))]))
    | Exit => (Exit, sup.2)
    | Panic => (Panic, sup.2)
    end.
Proof.
  intros Hscript path j1 s0 sup.
  unfold run, Run, RunScript, mbind, M_bind, JobUpdate, get_job, log_Printf,
    emit, update_job, mret, M_ret; simpl.
  rewrite Hscript. fold path j1 s0. fold sup.
  destruct sup as [[was_killed| |] s']; simpl; [|done..].
  by rewrite <-!app_assoc.
Qed.

(** X1. What a run whose script starts pushes to the server, in order:
    the job with [StartedAt] stamped; then, for the first [m] ticks of the
    script, this job with the snapshot of the tick as output; and, if the
    run returns, the job it ends with. *)
Theorem run_pushes w j bs ticks exited linger killed :
  script w (path_Dir w bs) (path_Base w bs) (Run_env j)
    = Spawns ticks exited linger killed →
  let j1 := set_StartedAt (clock_started w) j in
  ∃ m,
    pushes (trace (run w j bs).2) =
      j1 :: ((λ out, set_Output out j1) <$> take m ticks)
      ++ match (run w j bs).1 with
         | Val _ => [job (run w j bs).2]
         | _ => []
         end.
Proof.
  intros Hscript j1. rewrite (run_spawns _ _ _ _ _ _ _ Hscript).
  cbn zeta. fold j1.
  match goal with |- context [supervise _ _ _ _ ?s] =>
    destruct (supervise_pushes w linger ticks None s)
      as (R & m & Htr & Hp & _ & _) end.
  exists m. simpl in *.
  destruct (supervise _ _ _ _ _) as [[was_killed| |] s']; simpl in *;
    rewrite Htr, ?pushes_app; simpl; rewrite ?pushes_app, Hp; simpl;
    by rewrite ?app_nil_r.
Qed.

Lemma run_pushes_witness :
  let r := run canceling_world sample_job "/etc/agent/bootstrap.sh" in
  let j1 := set_StartedAt "2014-05-01T10:00:00Z" sample_job in
  ∃ m,
    pushes (trace r.2) =
      j1 :: ((λ out, set_Output out j1)
               <$> take m ["one"; "one two"; "one two three"])
      ++ [job r.2].
Proof.
  exact (run_pushes canceling_world sample_job "/etc/agent/bootstrap.sh"
           _ _ _ _ eq_refl).
Defined.

(** X2. Until [RunScript] has returned, every push goes to the path of the
    job and carries the job as it came, but for [StartedAt], which holds
    the start stamp, and [Output]: [FinishedAt] and [ExitStatus] are those
    the job came with (absent, when it came without). *)
Theorem pushes_before_finish w j bs pre path sent resp err post :
  trace (run w j bs).2 = pre ++ PutJob path sent resp err :: post →
  existsb is_ScriptEnd pre = false →
  path = "jobs/" +:+ ID j
  ∧ ID sent = ID j ∧ State sent = State j ∧ Env sent = Env j
  ∧ StartedAt sent = clock_started w
  ∧ FinishedAt sent = FinishedAt j
  ∧ ExitStatus sent = ExitStatus j.
Proof.
  intros Htr Hpre.
  assert (push_of (set_StartedAt (clock_started w) j)
            (PutJob path sent resp err)) as [-> Hsent].
  { destruct (script w (path_Dir w bs) (path_Base w bs) (Run_env j))
      as [p e|ticks exited linger killed] eqn:Hscript.
    - rewrite (run_launch_failure _ _ _ _ _ Hscript) in Htr. simpl in Htr.
      destruct pre as [|? [|? [|? [|? [|? [|? pre]]]]]]; simplify_eq/=;
        try done; by destruct pre.
    - rewrite (run_spawns _ _ _ _ _ _ _ Hscript) in Htr. cbn zeta in Htr.
      match type of Htr with context [supervise _ _ _ _ ?s] =>
        destruct (supervise_pushes w linger ticks None s)
          as (R & m & HR & _ & Hall & _) end.
      simpl in HR, Hall.
      assert (∃ tail, (tail = [] ∨ ∃ p rest, tail = ScriptEnd p None :: rest)
                ∧ pre ++ PutJob path sent resp err :: post
                  = [LogPrintf ("Starting job #" +:+ ID j);
                     PutJob ("jobs/" +:+ ID j)
                       (set_StartedAt (clock_started w) j)
                       (put w 0 ("jobs/" +:+ ID j)
                          (set_StartedAt (clock_started w) j)).1
                       (put w 0 ("jobs/" +:+ ID j)
                          (set_StartedAt (clock_started w) j)).2;
                     ScriptStart (path_Dir w bs) (path_Base w bs) (Run_env j)]
                    ++ R ++ tail) as (tail & Htail & Heq).
      { rewrite <-Htr.
        destruct (supervise _ _ _ _ _) as [[was_killed| |] s']; simpl in *;
          rewrite HR; [eexists; split; [right; eauto|]
                      |exists []; split; [by left|]..];
          simpl; by rewrite <-?app_assoc, ?app_nil_r. }
      symmetry in Heq.
      apply app3_eq_split in Heq as [(m' & Hm)|[(m1 & m2 & _ & -> & _)|(m' & -> & Hm)]].
      + destruct pre as [|? [|? [|? pre]]]; simplify_eq/=; [done|].
        by destruct pre.
      + apply Forall_app in Hall as [_ Hall].
        exact (List.Forall_inv Hall).
      + destruct Htail as [->|(p & rest & ->)]; [by destruct m'|].
        destruct m' as [|? m']; simplify_eq/=.
        rewrite !existsb_app in Hpre. simpl in Hpre.
        by rewrite !orb_true_r in Hpre. }
  destruct sent, j. unfold set_Output, set_StartedAt in Hsent.
  simpl in *. injection Hsent; intros; by subst.
Qed.

Lemma pushes_before_finish_witness :
  let tr := trace (run canceling_world sample_job "/etc/agent/bootstrap.sh").2 in
  ∃ sent resp,
    tr !! 4 = Some (PutJob "jobs/7" sent resp None)
    ∧ StartedAt sent = "2014-05-01T10:00:00Z"
    ∧ FinishedAt sent = "" ∧ ExitStatus sent = "".
Proof.
  intros tr.
  epose proof (pushes_before_finish canceling_world sample_job
    "/etc/agent/bootstrap.sh" (take 4 tr) _ _ _ _ (drop 5 tr)) as H.
  destruct H as (_ & _ & _ & _ & Hs & Hf & He).
  - vm_compute. reflexivity.
  - vm_compute. reflexivity.
  - eexists _, _. split_and!; [vm_compute; reflexivity|exact Hs|exact Hf|exact He].
Defined.

(** X3. A run that returns leaves the job finalized: [StartedAt] and
    [FinishedAt] hold the two stamps, [ExitStatus] is the decimal
    rendering of the exit status of the process that [RunScript] returned,
    [Output] is the output of that process, or the text of the launch
    error; [ID], [State] and [Env] are as they came.  This job is what the
    last push carries. *)
Theorem run_final_job w j bs :
  (run w j bs).1 = Val None →
  ∃ pre p err resp err',
    trace (run w j bs).2 =
      pre ++ [ScriptEnd p err;
              PutJob ("jobs/" +:+ ID j) (job (run w j bs).2) resp err';
              LogPrintf ("Finished job #" +:+ ID j)]
    ∧ job (run w j bs).2 =
        set_ExitStatus (sprintf_d (Process_ExitStatus p))
          (set_FinishedAt (clock_finished w)
             (set_Output (match err with
                          | Some e => e
                          | None => Process_Output p
                          end)
                (set_StartedAt (clock_started w) j))).
Proof.
  intros Hres.
  destruct (script w (path_Dir w bs) (path_Base w bs) (Run_env j))
    as [p e|ticks exited linger killed] eqn:Hscript.
  - rewrite (run_launch_failure _ _ _ _ _ Hscript). simpl.
    by eexists [_; _; _], p, (Some e), _, _.
  - rewrite (run_spawns _ _ _ _ _ _ _ Hscript) in Hres |- *.
    cbn zeta in Hres |- *.
    match goal with |- context [supervise _ _ _ _ ?s] =>
      destruct (supervise_pushes w linger ticks None s)
        as (R & m & _ & _ & _ & Hjob) end.
    simpl in Hjob.
    destruct (supervise _ _ _ _ _) as [[was_killed| |] s']; simpl in *;
      [|done..].
    destruct (job s') eqn:Hjs, j.
    unfold set_Output, set_StartedAt in Hjob. simpl in Hjob.
    injection Hjob; intros; subst.
    by eexists _, _, None, _, _.
Qed.

Lemma run_final_job_witness :
  let r := run canceling_world sample_job "/etc/agent/bootstrap.sh" in
  ∃ p,
    job r.2 =
      set_ExitStatus (sprintf_d (Process_ExitStatus p))
        (set_FinishedAt "2014-05-01T10:00:05Z"
           (set_Output (Process_Output p)
              (set_StartedAt "2014-05-01T10:00:00Z" sample_job))).
Proof.
  intros r.
  destruct (run_final_job canceling_world sample_job "/etc/agent/bootstrap.sh")
    as (pre & p & err & resp & err' & Htr & Hjob).
  - vm_compute. reflexivity.
  - exists (mkProcess "one two" (-1)). vm_compute. reflexivity.
Defined.

(** X4. The environment handed to the script has one string per entry of
    [Env], and each string is the key, an equals sign and the value. *)
Theorem Run_env_entries (j : Job) (s : string) :
  (s ∈ Run_env j ↔ ∃ key value, Env j !! key = Some value
                                 ∧ s = key +:+ "=" +:+ value)
  ∧ length (Run_env j) = size (Env j).
Proof.
  unfold Run_env. split.
  - rewrite list_elem_of_fmap. split.
    + intros ([key value] & -> & Hin%elem_of_map_to_list). eauto.
    + intros (key & value & Hin & ->). exists (key, value).
      split; [done|]. by apply elem_of_map_to_list.
  - by rewrite length_fmap, length_map_to_list.
Qed.

(** X5. A run calls [RunScript] once: with the directory and the base name
    of the bootstrap script and with the environment of the job, after the
    first push and before anything else. *)
Theorem run_starts_script_once w j bs :
  ∃ first post,
    trace (run w j bs).2 =
      [LogPrintf ("Starting job #" +:+ ID j); first;
       ScriptStart (path_Dir w bs) (path_Base w bs) (Run_env j)] ++ post
    ∧ is_PutJob first = true
    ∧ existsb is_ScriptStart post = false.
Proof.
  destruct (run_shape w j bs) as (R & x & tail & HR & -> & Hres).
  eexists _, _. split_and!; [done..|].
  rewrite existsb_app.
  destruct (ticks_trace_inside _ _ _ HR) as [-> _].
  destruct x; [by destruct Hres as [_ ->]|].
  by destruct Hres as [_ (? & ? & ? & ? & ->)].
Qed.

End JobEngine.

(** ** The artifact uploader *)

Module ArtifactUpload.
Import Buildkite.

(** *** Collection *)

Lemma collect_files_logs w a wd globPath files :
  ∀ artifacts tr,
    Forall (λ ev, is_log ev = true) tr →
    Forall (λ ev, is_log ev = true)
      (collect_files w a wd globPath files artifacts tr).2.
Proof.
  induction files as [|file files IH]; intros artifacts tr Htr; simpl; [done|].
  destruct (Abs w file) as [absolutePath|err]; [|done].
  destruct (Stat w absolutePath) as [fileInfo|err]; [|done].
  destruct (IsDir fileInfo).
  - apply IH. apply Forall_app. split; [done|]. by constructor.
  - destruct (build _ _ _ _ _) as [artifact|err]; [|done]. by apply IH.
Qed.

Lemma collect_paths_logs w a wd globPaths :
  ∀ artifacts tr,
    Forall (λ ev, is_log ev = true) tr →
    Forall (λ ev, is_log ev = true)
      (collect_paths w a wd globPaths artifacts tr).2.
Proof.
  induction globPaths as [|globPath globPaths IH]; intros artifacts tr Htr;
    simpl; [done|].
  case_decide; [by apply IH|].
  assert (Forall (λ ev, is_log ev = true)
            (tr ++ [LogDebug ("Globbing " +:+ wd +:+ " for "
                                +:+ strings_TrimSpace globPath)])) as Htr'.
  { apply Forall_app. split; [done|]. by constructor. }
  destruct (Glob w wd _) as [files|err]; [|done].
  pose proof (collect_files_logs w a wd (strings_TrimSpace globPath) files
                artifacts _ Htr') as Hfiles.
  destruct (collect_files _ _ _ _ _ _ _) as [[[returned|artifacts']| |] tr'];
    simpl in *; try done.
  by apply IH.
Qed.

(** All that collection does to the outside is to write debug lines. *)
Lemma collect_logs w a :
  Forall (λ ev, is_log ev = true) (collect w a).2.
Proof. by apply collect_paths_logs. Qed.

(** C10. When collection finds no artifact, [Upload] logs the summary
    line and returns nil: the trace is that of collection followed by the
    one line, and holds nothing but log lines, so no uploader was chosen
    or set up, no URL was assigned and nothing was registered. *)
Theorem Upload_nothing_to_do w a sched tr :
  collect w a = (Val ([], None), tr) →
  Upload w a sched
    = (Val None, [], tr ++ [LogInfo ("No files matched paths: " +:+ Paths a)])
  ∧ Forall (λ ev, is_log ev = true) (Upload w a sched).2.
Proof.
  intros Hcollect.
  assert (Upload w a sched
    = (Val None, [], tr ++ [LogInfo ("No files matched paths: " +:+ Paths a)]))
    as Heq.
  { unfold Upload. by rewrite Hcollect. }
  split; [done|]. rewrite Heq. simpl.
  apply Forall_app. split; [|by constructor].
  pose proof (collect_logs w a) as Hlogs. by rewrite Hcollect in Hlogs.
Qed.

Lemma Upload_nothing_to_do_witness :
  Upload nothing_matches sample_uploader sample_schedule
    = (Val None, [],
       [LogDebug "Globbing /work for *.log";
        LogDebug "Globbing /work for sub/*.log";
        LogInfo "No files matched paths: *.log; ;sub/*.log"]).
Proof.
  exact (proj1 (Upload_nothing_to_do nothing_matches sample_uploader
                  sample_schedule _ eq_refl)).
Defined.

(** C3. Two I/O errors of collection that are not returned.  The error of
    [os.Stat] is not looked at, and the nil [FileInfo] is dereferenced:
    collection panics.  The error of [io.Copy] is dropped: collection
    returns no error and a manifest whose checksum for the file covers
    only the bytes read before the error. *)
Theorem collect_io_errors_not_returned :
  (collect dangling_link sample_uploader).1 = Panic
  ∧ ∃ a0 a1 a2,
      (collect read_error sample_uploader).1 = Val ([a0; a1; a2], None)
      ∧ Path a1 = "b.log"
      ∧ Sha1Sum a1 = Sha1Hex read_error "cont".
Proof.
  split; [by vm_compute|].
  eexists _, _, _. split_and!; [by vm_compute|done..].
Qed.

(** *** Reading traces *)

Lemma task_view_app i tr tr' :
  task_view i (tr ++ tr') = task_view i tr ++ task_view i tr'.
Proof. apply filter_app. Qed.

Lemma task_view_nil i : task_view i [] = [].
Proof. done. Qed.

Lemma task_view_cons i ev tr :
  task_view i (ev :: tr) =
    if decide (owner ev = Some i) then ev :: task_view i tr else task_view i tr.
Proof. unfold task_view. rewrite filter_cons. by case_decide. Qed.

Lemma appended_app tr tr' : appended (tr ++ tr') = appended tr ++ appended tr'.
Proof.
  induction tr as [|ev tr IH]; [done|]. destruct ev; simpl; by rewrite ?IH.
Qed.

Lemma lock_replay_app tr tr' l :
  lock_replay (tr ++ tr') l = lock_replay tr l ≫= lock_replay tr'.
Proof.
  revert l. induction tr as [|ev tr IH]; intros l; [done|].
  destruct ev; simpl; try apply IH.
  - destruct l; [done|apply IH].
  - case_decide; [apply IH|done].
  - case_decide; [apply IH|done].
Qed.

(** Events that belong to no task leave the tasks, the error list and the
    lock alone. *)
Lemma unowned_events i tr l :
  Forall (λ ev, owner ev = None) tr →
  task_view i tr = [] ∧ appended tr = [] ∧ lock_replay tr l = Some l.
Proof.
  induction 1 as [|ev tr ? ? (IH1 & IH2 & IH3)]; [done|].
  rewrite task_view_cons, decide_False by congruence.
  by destruct ev.
Qed.

(** *** The pool, step by step *)

Section PoolFacts.
Context (w : World) (k : UploaderKind).

Lemma task_step_trace i st :
  ∃ more, trace (task_step w k i st) = trace st ++ more.
Proof.
  unfold task_step.
  destruct (pcs st !! i) as [pc|], (arts st !! i) as [a|];
    try (exists []; by rewrite app_nil_r).
  destruct pc; simpl; repeat case_match; simpl; eauto;
    exists []; by rewrite app_nil_r.
Qed.

Lemma pool_step_trace c st :
  ∃ more, trace (pool_step w k c st) = trace st ++ more.
Proof.
  destruct c as [|i]; [|apply task_step_trace].
  unfold pool_step, main_step. case_decide; simpl; eauto.
  exists []. by rewrite app_nil_r.
Qed.

Lemma pool_run_trace sched :
  ∀ st, ∃ more, trace (pool_run w k sched st) = trace st ++ more.
Proof.
  induction sched as [|c sched IH]; intros st; simpl.
  - exists []. by rewrite app_nil_r.
  - destruct (pool_step_trace c st) as [m1 H1].
    destruct (IH (pool_step w k c st)) as [m2 H2].
    exists (m1 ++ m2). by rewrite H2, H1, app_assoc.
Qed.

Lemma pool_run_app s1 s2 st :
  pool_run w k (s1 ++ s2) st = pool_run w k s2 (pool_run w k s1 st).
Proof. revert st. induction s1 as [|c s1 IH]; intros st; simpl; [done|apply IH]. Qed.

Lemma pool_complete_trace sched st :
  ∃ more, trace (pool_complete w k sched st) = trace st ++ more.
Proof.
  unfold pool_complete. rewrite <-pool_run_app. apply pool_run_trace.
Qed.

End PoolFacts.

(** *** What the pool keeps true *)

Section PoolInvariant.
Context (w : World) (k : UploaderKind) (arts0 : list Artifact).

Lemma pool_inv_start tr0 :
  Forall (λ ev, owner ev = None) tr0 →
  pool_inv w k arts0 (mkPool arts0 [] None [] tr0).
Proof.
  intros Htr0. split; simpl; try done.
  - lia.
  - intros i a0 Ha0. by destruct (unowned_events i tr0 None Htr0) as (-> & _ & _).
  - by destruct (unowned_events 0 tr0 None Htr0) as (_ & -> & _).
  - by destruct (unowned_events 0 tr0 None Htr0) as (_ & _ & ->).
Qed.

Lemma main_step_inv st :
  pool_inv w k arts0 st → pool_inv w k arts0 (main_step st).
Proof.
  intros [Hlen Hsp Htask Hholder Hfree Herr Hreplay].
  unfold main_step. case_decide as Hlt; [|done].
  split; simpl.
  - done.
  - rewrite length_app. simpl. lia.
  - intros i a0 Ha0. specialize (Htask i a0 Ha0).
    rewrite task_view_app, task_view_cons. simpl.
    destruct (decide (i = length (pcs st))) as [->|Hi].
    + rewrite lookup_ge_None_2 in Htask by lia. destruct Htask as [Hnow Hview].
      rewrite decide_True by done.
      rewrite lookup_app_r, Nat.sub_diag by lia. simpl.
      by rewrite Hview.
    + rewrite decide_False by congruence. rewrite app_nil_r.
      destruct (decide (i < length (pcs st))).
      * by rewrite lookup_app_l by lia.
      * rewrite lookup_ge_None_2 in Htask by lia.
        rewrite lookup_ge_None_2; [done|]. rewrite length_app. simpl. lia.
  - intros i Hi. destruct (Hholder i Hi) as (pc & Hpc & Hcs).
    exists pc. split; [|done].
    rewrite lookup_app_l; [done|]. by eapply lookup_lt_Some.
  - intros i pc Hpc Hcs.
    destruct (decide (i < length (pcs st))).
    + rewrite lookup_app_l in Hpc by lia. by eapply Hfree.
    + destruct (decide (i = length (pcs st))) as [->|].
      * rewrite lookup_app_r, Nat.sub_diag in Hpc by lia.
        by simplify_eq/=.
      * rewrite lookup_ge_None_2 in Hpc; [done|]. rewrite length_app. simpl. lia.
  - by rewrite appended_app, app_nil_r.
  - by rewrite lock_replay_app, Hreplay.
Qed.

Lemma task_view_other i j (evs : list Event) :
  i ≠ j →
  Forall (λ ev, owner ev = Some j ∨ owner ev = None) evs →
  task_view i evs = [].
Proof.
  intros Hij. induction 1 as [|ev evs Hown ? IH]; [done|].
  rewrite task_view_cons, decide_False; [done|].
  destruct Hown as [Hown|Hown]; rewrite Hown; congruence.
Qed.

Ltac solve_owned :=
  repeat first [apply List.Forall_nil | apply List.Forall_cons; [simpl; by auto|]].

Ltac solve_view :=
  rewrite ?task_view_app, ?task_view_cons, ?task_view_nil; simpl;
  repeat (rewrite decide_True by done);
  repeat (rewrite decide_False by done);
  simpl; rewrite <-?app_assoc; simpl.

Lemma task_step_inv i st :
  pool_inv w k arts0 st → pool_inv w k arts0 (task_step w k i st).
Proof.
  intros Hinv.
  pose proof Hinv as [Hlen Hsp Htask Hholder Hfree Herr Hreplay].
  unfold task_step.
  destruct (pcs st !! i) as [pc|] eqn:Hpc; [|done].
  destruct (arts st !! i) as [a|] eqn:Ha; [|done].
  assert (i < length (pcs st)) as Hi by (by eapply lookup_lt_Some).
  assert (i < length (arts st)) as Hi' by (by eapply lookup_lt_Some).
  destruct (lookup_lt_is_Some_2 arts0 i) as [a0 Ha0]; [lia|].
  pose proof (Htask i a0 Ha0) as Hme. rewrite Hpc in Hme.
  assert (∀ pc' a' lock' errs' new,
    length a' = length (arts st) →
    (∀ j, j ≠ i → a' !! j = arts st !! j) →
    Forall (λ ev, owner ev = Some i ∨ owner ev = None) new →
    task_at w k i a0 pc' (a' !! i) (task_view i (trace st ++ new)) →
    (∀ j, lock' = Some j →
       ∃ pc, <[i:=pc']> (pcs st) !! j = Some pc ∧ in_critical_section pc = true) →
    (∀ j pc, <[i:=pc']> (pcs st) !! j = Some pc →
       in_critical_section pc = true → lock' = Some j) →
    errs' = errors st ++ appended new →
    lock_replay new (lock st) = Some lock' →
    pool_inv w k arts0
      (mkPool a' (<[i:=pc']> (pcs st)) lock' errs' (trace st ++ new))) as Hstep.
  { intros pc' a' lock' errs' new Hlen' Hother Hnew Hat Hh Hf Herrs Hrep.
    split; simpl.
    - congruence.
    - by rewrite length_insert.
    - intros j b0 Hb0. destruct (decide (j = i)) as [->|Hj].
      + rewrite list_lookup_insert_eq by done. by simplify_eq.
      + rewrite list_lookup_insert_ne by done. rewrite Hother by done.
        rewrite task_view_app, (task_view_other j i new), app_nil_r by done.
        by apply Htask.
    - done.
    - done.
    - by rewrite appended_app, Herrs, Herr.
    - by rewrite lock_replay_app, Hreplay. }
  assert (∀ pc', in_critical_section pc' = in_critical_section pc →
    (∀ j, lock st = Some j →
       ∃ pc, <[i:=pc']> (pcs st) !! j = Some pc ∧ in_critical_section pc = true)
    ∧ (∀ j pc, <[i:=pc']> (pcs st) !! j = Some pc →
       in_critical_section pc = true → lock st = Some j)) as Hsame.
  { intros pc' Hcs. split.
    - intros j Hj. destruct (Hholder j Hj) as (pcj & Hpcj & Hcsj).
      destruct (decide (j = i)) as [->|Hne].
      + exists pc'. rewrite list_lookup_insert_eq by done. split; [done|].
        rewrite Hcs. by simplify_eq.
      + exists pcj. by rewrite list_lookup_insert_ne.
    - intros j pcj Hpcj Hcsj. destruct (decide (j = i)) as [->|Hne].
      + rewrite list_lookup_insert_eq in Hpcj by done. simplify_eq.
        eapply Hfree; [done|]. by rewrite <-Hcs.
      + rewrite list_lookup_insert_ne in Hpcj by done. by eapply Hfree. }
  assert (in_critical_section pc = true → lock st = Some i) as Hmine
    by (by apply Hfree).
  rewrite Ha in Hme.
  destruct pc as [| |err ph|err ph|err ph| |]; simpl in Hme.
  - (* the log line *)
    destruct Hme as [? Hview]. simplify_eq.
    apply Hstep; try apply Hsame; try done.
    + solve_owned.
    + rewrite Ha. solve_view. by rewrite Hview.
    + simpl. by rewrite app_nil_r.
  - (* the upload *)
    destruct Hme as [? Hview]. simplify_eq.
    destruct (Uploader_Upload w k i a0) as [err|] eqn:Hup;
      (apply Hstep; try apply Hsame; try done;
       [by rewrite length_insert
       |intros j Hj; by rewrite list_lookup_insert_ne
       |solve_owned
       |rewrite list_lookup_insert_eq by done; unfold task_at; rewrite Hup;
        solve_view; by rewrite Hview
       |simpl; by rewrite app_nil_r]).
  - (* taking the lock *)
    destruct (lock st) as [h|] eqn:Hlock; [done|].
    apply Hstep; try done.
    + solve_owned.
    + rewrite Ha. destruct ph; simpl in *; destruct_and!; simplify_eq;
        split_and!; try done; solve_view;
        match goal with H : task_view _ _ = _ |- _ => rewrite H end;
        simpl; by rewrite <-?app_assoc.
    + intros j [= <-]. exists (PAppend err ph).
      by rewrite list_lookup_insert_eq.
    + intros j pcj Hpcj Hcs. destruct (decide (j = i)) as [->|Hne]; [done|].
      rewrite list_lookup_insert_ne in Hpcj by done.
      by specialize (Hfree j pcj Hpcj Hcs).
    + simpl. by rewrite app_nil_r.
  - (* the append *)
    rewrite Hmine in * by done.
    apply Hstep; try apply Hsame; try done.
    + solve_owned.
    + rewrite Ha. destruct ph; simpl in *; destruct_and!; simplify_eq;
        split_and!; try done; solve_view;
        match goal with H : task_view _ _ = _ |- _ => rewrite H end;
        simpl; by rewrite <-?app_assoc.
    + simpl. by rewrite decide_True.
  - (* giving the lock back *)
    rewrite Hmine in * by done.
    apply Hstep; try done.
    + solve_owned.
    + rewrite Ha. destruct ph; simpl in *; destruct_and!; simplify_eq;
        split_and!; try done; solve_view;
        match goal with H : task_view _ _ = _ |- _ => rewrite H end;
        repeat match goal with H : _ = Some _ |- _ => rewrite H end;
        simpl; by rewrite <-?app_assoc.
    + intros j pcj Hpcj Hcs. destruct (decide (j = i)) as [->|Hne].
      * rewrite list_lookup_insert_eq in Hpcj by done.
        simplify_eq. by destruct ph.
      * rewrite list_lookup_insert_ne in Hpcj by done.
        pose proof (Hfree j pcj Hpcj Hcs). congruence.
    + simpl. by rewrite app_nil_r.
    + simpl. by rewrite decide_True.
  - (* the update *)
    destruct Hme as [? Hview]. simplify_eq.
    destruct (Artifact_Update w i _) as [err|] eqn:Hupd;
      (apply Hstep; try apply Hsame; try done;
       [solve_owned
       |rewrite Ha; unfold task_at; rewrite ?Hupd;
        split_and!; try done; solve_view; rewrite Hview;
        by rewrite <-?app_assoc, ?app_nil_r
       |simpl; by rewrite app_nil_r]).
  - done.
Qed.

Lemma pool_step_inv c st :
  pool_inv w k arts0 st → pool_inv w k arts0 (pool_step w k c st).
Proof. destruct c; [apply main_step_inv|apply task_step_inv]. Qed.

Lemma pool_run_inv sched :
  ∀ st, pool_inv w k arts0 st → pool_inv w k arts0 (pool_run w k sched st).
Proof.
  induction sched as [|c sched IH]; intros st Hinv; [done|].
  simpl. by apply IH, pool_step_inv.
Qed.

(** *** Every task comes to its end *)

Lemma task_step_spawned i st :
  length (pcs (task_step w k i st)) = length (pcs st).
Proof.
  unfold task_step.
  destruct (pcs st !! i) as [pc|], (arts st !! i) as [a|]; try done.
  destruct pc; simpl; repeat case_match; simpl; by rewrite ?length_insert.
Qed.

Lemma pool_step_done c st j :
  pcs st !! j = Some PDone → pcs (pool_step w k c st) !! j = Some PDone.
Proof.
  intros Hj. destruct c as [|i]; simpl.
  - unfold main_step. case_decide; [|done]. simpl.
    rewrite lookup_app_l; [done|]. by eapply lookup_lt_Some.
  - unfold task_step.
    destruct (pcs st !! i) as [pc|] eqn:Hpc; [|done].
    destruct (arts st !! i) as [a|]; [|done].
    destruct (decide (i = j)) as [->|Hne].
    + by simplify_eq.
    + destruct pc; simpl; repeat case_match; simpl;
        by rewrite ?list_lookup_insert_ne.
Qed.

Lemma pool_run_done sched j :
  ∀ st, pcs st !! j = Some PDone → pcs (pool_run w k sched st) !! j = Some PDone.
Proof.
  induction sched as [|c sched IH]; intros st Hj; [done|].
  simpl. by apply IH, pool_step_done.
Qed.

(** A task that is alone at the lock moves with every step. *)
Lemma task_step_progress i st pc :
  pool_inv w k arts0 st →
  lock st = None ∨ lock st = Some i →
  pcs st !! i = Some pc →
  ∃ pc',
    pcs (task_step w k i st) !! i = Some pc'
    ∧ (steps_left pc' ≤ pred (steps_left pc))%nat
    ∧ (lock (task_step w k i st) = None ∨ lock (task_step w k i st) = Some i).
Proof.
  intros [Hlen Hsp _ Hholder _ _ _] Hlock Hpc.
  assert (i < length (pcs st)) as Hi by (by eapply lookup_lt_Some).
  destruct (lookup_lt_is_Some_2 (arts st) i) as [a Ha]; [lia|].
  unfold task_step. rewrite Hpc, Ha.
  destruct pc as [| |err ph|err ph|err ph| |]; simpl.
  - exists PUpload. by rewrite list_lookup_insert_eq.
  - destruct (Uploader_Upload w k i a); simpl; eexists;
      (rewrite list_lookup_insert_eq by done); split_and!; try done; simpl; lia.
  - destruct Hlock as [Hl|Hl].
    + rewrite Hl. simpl. exists (PAppend err ph).
      rewrite list_lookup_insert_eq by done. split_and!; [done| |by right].
      destruct ph; simpl; lia.
    + destruct (Hholder i Hl) as (pc & Hpc' & Hcs). by simplify_eq.
  - exists (PUnlock err ph). rewrite list_lookup_insert_eq by done.
    split_and!; [done| |done]. destruct ph; simpl; lia.
  - eexists. rewrite list_lookup_insert_eq by done.
    split_and!; [done| |by left]. destruct ph; simpl; lia.
  - destruct (Artifact_Update w i a); simpl; eexists;
      (rewrite list_lookup_insert_eq by done); split_and!; try done; simpl; lia.
  - exists PDone. by rewrite Hpc.
Qed.

Lemma task_runs_out i m :
  ∀ st pc,
    pool_inv w k arts0 st →
    lock st = None ∨ lock st = Some i →
    pcs st !! i = Some pc →
    (steps_left pc ≤ m)%nat →
    pcs (pool_run w k (replicate m (Task i)) st) !! i = Some PDone
    ∧ lock (pool_run w k (replicate m (Task i)) st) = None
    ∧ length (pcs (pool_run w k (replicate m (Task i)) st)) = length (pcs st).
Proof.
  induction m as [|m IH]; intros st pc Hinv Hlock Hpc Hm; simpl.
  - assert (pc = PDone) as ->
      by (destruct pc as [| |? []|? []|? []| |]; simpl in *; (done || lia)).
    split_and!; [done| |done].
    destruct Hlock as [?|Hl]; [done|].
    destruct (inv_lock_holder _ _ _ _ Hinv i Hl) as (pc & ? & ?). by simplify_eq.
  - destruct (task_step_progress i st pc Hinv Hlock Hpc) as (pc' & Hpc' & Hleft & Hlock').
    destruct (IH (task_step w k i st) pc') as (H1 & H2 & H3);
      [by apply task_step_inv|done|done|lia|].
    by rewrite H3, task_step_spawned.
Qed.

Lemma spawn_all m :
  ∀ st,
    pool_inv w k arts0 st →
    (length arts0 ≤ length (pcs st) + m)%nat →
    length (pcs (pool_run w k (replicate m Main) st)) = length arts0
    ∧ lock (pool_run w k (replicate m Main) st) = lock st.
Proof.
  induction m as [|m IH]; intros st Hinv Hm; simpl.
  - pose proof (inv_spawned _ _ _ _ Hinv). split; [lia|done].
  - destruct (IH (main_step st)) as [H1 H2]; [by apply main_step_inv| |].
    + pose proof (inv_length _ _ _ _ Hinv).
      unfold main_step. case_decide; simpl; [rewrite length_app; simpl|]; lia.
    + split; [done|]. rewrite H2. unfold main_step. by case_decide.
Qed.

Lemma finish_all (tasks : list nat) :
  ∀ st,
    pool_inv w k arts0 st →
    lock st = None →
    length (pcs st) = length arts0 →
    Forall (λ i, i < length arts0) tasks →
    let st' := pool_run w k (flat_map (λ i, replicate 9 (Task i)) tasks) st in
    lock st' = None
    ∧ length (pcs st') = length arts0
    ∧ Forall (λ i, pcs st' !! i = Some PDone) tasks.
Proof.
  induction tasks as [|i tasks IH]; intros st Hinv Hlock Hall Htasks st';
    subst st'; cbn [flat_map].
  - done.
  - apply Forall_cons in Htasks as [Hi Htasks].
    rewrite pool_run_app.
    destruct (lookup_lt_is_Some_2 (pcs st) i) as [pc Hpc]; [lia|].
    destruct (task_runs_out i 9 st pc) as (Hdone & Hfree & Hlen);
      [done|by left|done|destruct pc as [| |? []|? []|? []| |]; simpl; lia|].
    destruct (IH (pool_run w k (replicate 9 (Task i)) st)) as (H1 & H2 & H3);
      [by apply pool_run_inv|done|congruence|done|].
    split_and!; [done..|].
    apply Forall_cons. split; [|done]. by apply pool_run_done.
Qed.

(** [p.Wait()] returns: in the end every artifact has its task, every task
    is done and the lock is free. *)
Lemma pool_complete_done sched st :
  pool_inv w k arts0 st →
  pool_inv w k arts0 (pool_complete w k sched st)
  ∧ lock (pool_complete w k sched st) = None
  ∧ ∀ i, i < length arts0 → pcs (pool_complete w k sched st) !! i = Some PDone.
Proof.
  intros Hinv0. unfold pool_complete.
  set (st1 := pool_run w k sched st).
  assert (pool_inv w k arts0 st1) as Hinv1 by (by apply pool_run_inv).
  split; [by apply pool_run_inv|].
  unfold rest_schedule. rewrite !pool_run_app.
  rewrite (inv_length _ _ _ _ Hinv1).
  set (st2 := pool_run w k (replicate (length arts0) Main) st1).
  destruct (spawn_all (length arts0) st1 Hinv1) as [Hlen2 Hlock2]; [lia|].
  fold st2 in Hlen2, Hlock2.
  assert (pool_inv w k arts0 st2) as Hinv2 by (by apply pool_run_inv).
  assert (∀ st3,
    pool_inv w k arts0 st3 → lock st3 = None →
    length (pcs st3) = length arts0 →
    lock (pool_run w k (flat_map (λ i, replicate 9 (Task i))
                          (seq 0 (length arts0))) st3) = None
    ∧ ∀ i, i < length arts0 →
        pcs (pool_run w k (flat_map (λ i, replicate 9 (Task i))
                             (seq 0 (length arts0))) st3) !! i = Some PDone)
    as Hfinish.
  { intros st3 Hinv3 Hlock3 Hlen3.
    destruct (finish_all (seq 0 (length arts0)) st3) as (Hl & _ & Hdone);
      [done..| |].
    { apply Forall_forall. intros i Hi%elem_of_seq. lia. }
    split; [exact Hl|]. intros i Hi.
    rewrite Forall_forall in Hdone. apply Hdone, elem_of_seq. lia. }
  destruct (lock st1) as [h|] eqn:Hh.
  - destruct (inv_lock_holder _ _ _ _ Hinv2 h) as (pc & Hpc & _); [congruence|].
    destruct (task_runs_out h 9 st2 pc) as (_ & Hfree & Hlen);
      [exact Hinv2|right; congruence|exact Hpc
      |destruct pc as [| |? []|? []|? []| |]; cbn [steps_left]; lia|].
    apply Hfinish; [by apply pool_run_inv|exact Hfree|congruence].
  - change (pool_run w k [] st2) with st2.
    apply Hfinish; [exact Hinv2|congruence|exact Hlen2].
Qed.

End PoolInvariant.

(** *** The whole of [upload] *)

Lemma URL_events_unowned k artifacts :
  Forall (λ ev, owner ev = None) (URL_events k artifacts).
Proof.
  apply Forall_forall. intros ev Hev. unfold URL_events in Hev.
  apply elem_of_lookup_imap in Hev as (i & a & -> & _). done.
Qed.

Lemma URL_events_not_pool k artifacts :
  Forall (λ ev, is_pool_event ev = false) (URL_events k artifacts).
Proof.
  apply Forall_forall. intros ev Hev. unfold URL_events in Hev.
  apply elem_of_lookup_imap in Hev as (i & a & -> & _). done.
Qed.

(** What [upload] comes to once the artifacts are registered. *)
Lemma upload_registered w a sched artifacts uploader :
  choose_uploader (Destination a) = inl uploader →
  Uploader_Setup w uploader (Destination a) = None →
  Batch_Create w (Uploader_API a) (JobID a) (assign_URLs w uploader artifacts)
    = None →
  let arts0 := assign_URLs w uploader artifacts in
  let tr0 := EvSetup uploader (Destination a)
             :: URL_events uploader artifacts
             ++ [EvCreate (Uploader_API a) (JobID a) arts0] in
  ∃ st more,
    pool_inv w uploader arts0 st
    ∧ lock st = None
    ∧ (∀ i, i < length arts0 → pcs st !! i = Some PDone)
    ∧ trace st = tr0 ++ more
    ∧ upload w a sched artifacts =
        if decide (errors st = []) then (Val None, arts st, trace st ++ [EvWait])
        else (Exit, arts st, trace st ++ [EvWait; LogFatal upload_failed]).
Proof.
  intros Hchoose Hsetup Hcreate arts0 tr0.
  assert (Forall (λ ev, owner ev = None) tr0) as Htr0.
  { apply List.Forall_cons; [done|]. apply Forall_app. split.
    - apply URL_events_unowned.
    - by apply List.Forall_cons. }
  pose proof (pool_inv_start w uploader arts0 tr0 Htr0) as Hinv0.
  destruct (pool_complete_done w uploader arts0 sched _ Hinv0)
    as (Hinv & Hlock & Hdone).
  destruct (pool_complete_trace w uploader sched (mkPool arts0 [] None [] tr0))
    as [more Hmore].
  eexists _, more. split_and!; [exact Hinv|exact Hlock|exact Hdone|exact Hmore|].
  unfold upload. rewrite Hchoose, Hsetup. cbn zeta. rewrite Hcreate.
  change ([EvSetup uploader (Destination a)] ++ URL_events uploader artifacts
          ++ [EvCreate (Uploader_API a) (JobID a)
                (assign_URLs w uploader artifacts)]) with tr0.
  fold arts0.
  destruct (errors _) as [|e errs]; simpl.
  - done.
  - by rewrite <-app_assoc.
Qed.

(** C2. Once the manifest is registered, whatever the schedule of the
    pool and whatever fails: every artifact is uploaded exactly once; a
    failed upload leaves it in state "error" and has its error appended to
    the shared list, a successful one leaves it in state "finished"; in
    both cases the artifact is then pushed to the server in its new state,
    and a failed push has its error appended as well; every append happens
    while the appending task holds the lock.  All of this precedes [Wait];
    after it the coordinator reports failure exactly when an error was
    appended, and the states of the artifacts are left as the tasks set
    them. *)
Theorem upload_attempts_every_artifact w a sched artifacts uploader :
  choose_uploader (Destination a) = inl uploader →
  Uploader_Setup w uploader (Destination a) = None →
  Batch_Create w (Uploader_API a) (JobID a) (assign_URLs w uploader artifacts)
    = None →
  let r := upload w a sched artifacts in
  (∀ i a0,
     assign_URLs w uploader artifacts !! i = Some a0 →
     let ru := Uploader_Upload w uploader i a0 in
     let a1 := set_State (uploaded_state ru) a0 in
     r.1.2 !! i = Some a1
     ∧ task_view i r.2 =
         [EvSpawn i; EvUpload uploader i a0] ++ record i ru
         ++ [EvUpdate i a1] ++ record i (Artifact_Update w i a1))
  ∧ lock_replay r.2 None = Some None
  ∧ ∃ body,
      (∀ i, task_view i body = task_view i r.2)
      ∧ r.2 = body ++ EvWait
                :: (if decide (appended body = []) then []
                    else [LogFatal upload_failed])
      ∧ r.1.1 = (if decide (appended body = []) then Val None else Exit).
Proof.
  intros Hchoose Hsetup Hcreate r. subst r.
  destruct (upload_registered w a sched artifacts uploader Hchoose Hsetup Hcreate)
    as (st & more & Hinv & Hlock & Hdone & Htr & ->).
  pose proof Hinv as [Hlen _ Htask _ _ Herr Hreplay].
  assert (∀ tail, Forall (λ ev, owner ev = None) tail →
    (∀ i, task_view i (trace st) = task_view i (trace st ++ tail))
    ∧ lock_replay (trace st ++ tail) None = Some None) as Htail.
  { intros tail Hun. split.
    - intros i. destruct (unowned_events i tail None Hun) as (Hv & _ & _).
      by rewrite task_view_app, Hv, app_nil_r.
    - destruct (unowned_events 0 tail None Hun) as (_ & _ & Hl).
      by rewrite lock_replay_app, Hreplay, Hlock. }
  assert (∀ i a0, assign_URLs w uploader artifacts !! i = Some a0 →
    arts st !! i = Some (set_State (uploaded_state (Uploader_Upload w uploader i a0)) a0)
    ∧ task_view i (trace st) =
        [EvSpawn i; EvUpload uploader i a0]
        ++ record i (Uploader_Upload w uploader i a0)
        ++ [EvUpdate i (set_State (uploaded_state (Uploader_Upload w uploader i a0)) a0)]
        ++ record i (Artifact_Update w i
             (set_State (uploaded_state (Uploader_Upload w uploader i a0)) a0)))
    as Hall.
  { intros i a0 Ha0. specialize (Htask i a0 Ha0).
    rewrite Hdone in Htask by (by eapply lookup_lt_Some). exact Htask. }
  rewrite Herr.
  destruct (decide (appended (trace st) = [])) as [Hnone|Hsome]; simpl.
  - destruct (Htail [EvWait]) as [Hv Hl]; [by repeat constructor|].
    split_and!; [|done|].
    + intros i a0 Ha0. destruct (Hall i a0 Ha0) as [? Hview].
      by rewrite <-Hv.
    + exists (trace st). rewrite !decide_True by done.
      split_and!; [exact Hv|done..].
  - destruct (Htail [EvWait; LogFatal upload_failed]) as [Hv Hl];
      [by repeat constructor|].
    split_and!; [|done|].
    + intros i a0 Ha0. destruct (Hall i a0 Ha0) as [? Hview].
      by rewrite <-Hv.
    + exists (trace st). rewrite !decide_False by done.
      split_and!; [exact Hv|done..].
Qed.

Lemma upload_attempts_every_artifact_witness :
  let r := upload one_upload_fails sample_uploader sample_schedule
             sample_manifest in
  State <$> r.1.2 = ["finished"; "error"; "finished"]
  ∧ (∃ a0,
       task_view 1 r.2 =
         [EvSpawn 1; EvUpload S3Uploader 1 a0;
          EvLock 1; EvAppend 1 "connection reset"; EvUnlock 1;
          EvUpdate 1 (set_State "error" a0)])
  ∧ lock_replay r.2 None = Some None
  ∧ r.1.1 = Exit.
Proof.
  intros r.
  destruct (upload_attempts_every_artifact one_upload_fails sample_uploader
              sample_schedule sample_manifest S3Uploader eq_refl eq_refl eq_refl)
    as (Hall & Hlock & _).
  edestruct (Hall 1) as [_ Hview]; [by vm_compute|].
  split_and!; [by vm_compute|eexists; exact Hview|exact Hlock|by vm_compute].
Defined.

(** C5. Nothing of the pool happens before the manifest is registered: in
    front of any event of the pool (a task submitted, a file uploaded, an
    artifact pushed) the trace holds the setup of the chosen uploader, the
    URL of every artifact in turn, and the one call that registers the
    whole manifest, with the URLs set, and that call succeeded.  When the
    registration fails, [upload] returns its error and the trace ends with
    the registration.  The URLs are those the uploader gives. *)
Theorem registration_precedes_pool w a sched artifacts :
  let r := upload w a sched artifacts in
  (∀ pre ev post,
     r.2 = pre ++ ev :: post →
     is_pool_event ev = true →
     ∃ uploader pre',
       choose_uploader (Destination a) = inl uploader
       ∧ Batch_Create w (Uploader_API a) (JobID a)
           (assign_URLs w uploader artifacts) = None
       ∧ pre = EvSetup uploader (Destination a)
               :: URL_events uploader artifacts
               ++ EvCreate (Uploader_API a) (JobID a)
                    (assign_URLs w uploader artifacts) :: pre')
  ∧ (∀ uploader err,
       choose_uploader (Destination a) = inl uploader →
       Uploader_Setup w uploader (Destination a) = None →
       Batch_Create w (Uploader_API a) (JobID a)
         (assign_URLs w uploader artifacts) = Some err →
       r = (Val (Some err), assign_URLs w uploader artifacts,
            EvSetup uploader (Destination a)
            :: URL_events uploader artifacts
            ++ [EvCreate (Uploader_API a) (JobID a)
                  (assign_URLs w uploader artifacts)]))
  ∧ (∀ uploader i a1,
       assign_URLs w uploader artifacts !! i = Some a1 →
       ∃ a0, artifacts !! i = Some a0
             ∧ a1 = set_URL (Uploader_URL w uploader a0) a0
             ∧ URL_events uploader artifacts !! i = Some (EvURL uploader i a0)).
Proof.
  intros r. subst r. split_and!.
  - intros pre ev post Htr Hev.
    destruct (choose_uploader (Destination a)) as [uploader|err] eqn:Hchoose;
      [|unfold upload in Htr; rewrite Hchoose in Htr; by destruct pre].
    assert (Forall (λ ev, is_pool_event ev = false)
              (EvSetup uploader (Destination a)
               :: URL_events uploader artifacts
               ++ [EvCreate (Uploader_API a) (JobID a)
                     (assign_URLs w uploader artifacts)])) as Hfront.
    { apply List.Forall_cons; [done|]. apply Forall_app. split.
      - apply URL_events_not_pool.
      - by apply List.Forall_cons. }
    assert (∀ tr post', Forall (λ ev, is_pool_event ev = false) tr →
              tr ≠ pre ++ ev :: post') as Hnot.
    { intros tr post' Htr' ->. apply Forall_app in Htr' as [_ Htr'].
      apply Forall_cons in Htr' as [Htr' _]. congruence. }
    destruct (Uploader_Setup w uploader (Destination a)) as [err|] eqn:Hsetup.
    { unfold upload in Htr. rewrite Hchoose, Hsetup in Htr.
      by destruct pre as [|? [|? ?]]; simplify_eq/=. }
    destruct (Batch_Create w (Uploader_API a) (JobID a)
                (assign_URLs w uploader artifacts)) as [err|] eqn:Hcreate.
    { unfold upload in Htr. rewrite Hchoose, Hsetup in Htr.
      cbn zeta in Htr. rewrite Hcreate in Htr. by destruct (Hnot _ post Hfront). }
    destruct (upload_registered w a sched artifacts uploader Hchoose Hsetup Hcreate)
      as (st & more & _ & _ & _ & Hst & Hup).
    rewrite Hup in Htr.
    assert (∃ rest, pre ++ ev :: post
              = (EvSetup uploader (Destination a)
                 :: URL_events uploader artifacts
                 ++ [EvCreate (Uploader_API a) (JobID a)
                       (assign_URLs w uploader artifacts)]) ++ rest)
      as [rest Hrest].
    { case_decide; simpl in Htr; rewrite <-Htr, Hst, <-app_assoc; eauto. }
    symmetry in Hrest.
    apply app_eq_split in Hrest as [(m & Hm & _)|(m & -> & _)].
    + by destruct (Hnot _ m Hfront).
    + exists uploader, m. split_and!; [done..|].
      simpl. by rewrite <-app_assoc.
  - intros uploader err Hchoose Hsetup Hcreate.
    unfold upload. rewrite Hchoose, Hsetup. cbn zeta. by rewrite Hcreate.
  - intros uploader i a1 Ha1. unfold assign_URLs in Ha1.
    rewrite list_lookup_fmap in Ha1.
    destruct (artifacts !! i) as [a0|] eqn:Ha0; [|done].
    exists a0. simplify_eq/=. split_and!; [done..|].
    unfold URL_events. by rewrite list_lookup_imap, Ha0.
Qed.

Lemma registration_precedes_pool_witness :
  let r := upload one_upload_fails sample_uploader sample_schedule
             sample_manifest in
  ∃ pre',
    take 5 r.2
    = EvSetup S3Uploader "s3://bucket/path"
      :: URL_events S3Uploader sample_manifest
      ++ EvCreate (APIClient "https://agent.example") "job-1"
           (assign_URLs one_upload_fails S3Uploader sample_manifest) :: pre'.
Proof.
  intros r.
  destruct (proj1 (registration_precedes_pool one_upload_fails sample_uploader
              sample_schedule sample_manifest)
              (take 5 r.2) (EvSpawn 0) (drop 6 r.2))
    as (uploader & pre' & Hchoose & _ & Hpre).
  - by vm_compute.
  - done.
  - injection Hchoose as <-. by exists pre'.
Defined.

(** *** The choice of the uploader *)

(** C6. The choice of the uploader looks at the destination only and has
    three outcomes.  The empty destination gives the form uploader, a
    destination that starts with [s3://] gives the S3 uploader; in both
    cases the first thing [upload] does is to set this uploader up.  Any
    other destination makes [upload] return the configuration error with
    an empty trace and the artifacts untouched. *)
Theorem uploader_choice w a sched artifacts :
  match decide (Destination a = ""),
        strings_HasPrefix (Destination a) "s3://" with
  | left _, _ =>
      choose_uploader (Destination a) = inl FormUploader
      ∧ head (upload w a sched artifacts).2 = Some (EvSetup FormUploader "")
  | right _, true =>
      choose_uploader (Destination a) = inl S3Uploader
      ∧ head (upload w a sched artifacts).2
          = Some (EvSetup S3Uploader (Destination a))
  | right _, false =>
      upload w a sched artifacts
        = (Val (Some ("Unknown upload destination: " +:+ Destination a)),
           artifacts, [])
  end.
Proof.
  unfold upload, choose_uploader.
  destruct (decide (Destination a = "")) as [Hd|Hd].
  - rewrite decide_False by naive_solver. rewrite Hd. split; [done|].
    destruct (Uploader_Setup _ _ _); [done|].
    destruct (Batch_Create _ _ _ _); [done|].
    match goal with |- context [pool_complete _ _ _ ?st] =>
      destruct (pool_complete_trace w FormUploader sched st) as [more ->] end.
    by case_decide.
  - rewrite decide_True by done.
    destruct (strings_HasPrefix _ _); [|done]. split; [done|].
    destruct (Uploader_Setup _ _ _); [done|].
    destruct (Batch_Create _ _ _ _); [done|].
    match goal with |- context [pool_complete _ _ _ ?st] =>
      destruct (pool_complete_trace w S3Uploader sched st) as [more ->] end.
    by case_decide.
Qed.

(** *** More on collection *)

Lemma build_collected w a relativePath absolutePath globPath artifact fileInfo :
  build w a relativePath absolutePath globPath = inl artifact →
  Stat w absolutePath = inl fileInfo →
  IsDir fileInfo = false →
  globPath ≠ "" →
  globPath ∈ strings_TrimSpace <$> strings_Split (Paths a) ";"%char →
  collected w a artifact.
Proof.
  unfold build. intros Hbuild Hstat Hdir Hne Hin.
  destruct (Open w absolutePath) as [file|] eqn:Hopen; [|done].
  destruct (File_Stat w file) as [fileInfo'|] eqn:Hfstat; [|done].
  simplify_eq. unfold collected; simpl.
  split_and!; try done; [by exists fileInfo|].
  exists file, fileInfo'. by rewrite Hopen.
Qed.

Lemma collect_files_collected w a wd globPath files :
  globPath ≠ "" →
  globPath ∈ strings_TrimSpace <$> strings_Split (Paths a) ";"%char →
  ∀ artifacts tr,
    Forall (collected w a) artifacts →
    match (collect_files w a wd globPath files artifacts tr).1 with
    | Val (inr artifacts') => Forall (collected w a) artifacts'
    | Val (inl (returned, err)) => returned = [] ∧ is_Some err
    | _ => True
    end.
Proof.
  intros Hne Hin.
  induction files as [|file files IH]; intros artifacts tr Harts; simpl; [done|].
  destruct (Abs w file) as [absolutePath|err]; [|by eauto].
  destruct (Stat w absolutePath) as [fileInfo|err] eqn:Hstat; [|done].
  destruct (IsDir fileInfo) eqn:Hdir; [by apply IH|].
  destruct (build _ _ _ _ _) as [artifact|err] eqn:Hbuild; [|by eauto].
  apply IH. apply Forall_app. split; [done|].
  apply List.Forall_cons; [|done]. by eapply build_collected.
Qed.

Lemma collect_paths_collected w a wd globPaths :
  globPaths ⊆ strings_Split (Paths a) ";"%char →
  ∀ artifacts tr,
    Forall (collected w a) artifacts →
    match (collect_paths w a wd globPaths artifacts tr).1 with
    | Val (artifacts', None) => Forall (collected w a) artifacts'
    | Val (returned, Some _) => returned = []
    | _ => True
    end.
Proof.
  induction globPaths as [|globPath globPaths IH]; intros Hsub artifacts tr Harts;
    simpl; [done|].
  assert (globPaths ⊆ strings_Split (Paths a) ";"%char) as Hsub'
    by set_solver.
  case_decide as Hblank; [by apply IH|].
  destruct (Glob w wd _) as [files|err]; [|done].
  pose proof (collect_files_collected w a wd (strings_TrimSpace globPath) files
                Hblank) as Hfiles.
  match goal with |- context [collect_files _ _ _ _ _ _ ?t] =>
    specialize (Hfiles ltac:(apply list_elem_of_fmap; exists globPath; set_solver)
                  artifacts t Harts) end.
  destruct (collect_files _ _ _ _ _ _ _) as [[[[returned err]|artifacts']| |] tr'];
    simpl in *; try done.
  - destruct Hfiles as [-> [e ->]]. done.
  - by apply IH.
Qed.



(** X7. When [collect] returns an error it returns no manifest with it,
    whatever was collected before, and [Upload] hands the error on
    without having chosen or set up an uploader: its trace holds log lines
    only. *)
Theorem collect_error_no_manifest w a sched artifacts err :
  (collect w a).1 = Val (artifacts, Some err) →
  artifacts = []
  ∧ Upload w a sched = (Val (Some err), [], (collect w a).2)
  ∧ Forall (λ ev, is_log ev = true) (Upload w a sched).2.
Proof.
  intros Hcollect.
  pose proof (collect_paths_collected w a (Getwd w)
                (strings_Split (Paths a) ";"%char) ltac:(done) [] []
                ltac:(by constructor)) as H.
  unfold collect in Hcollect. rewrite Hcollect in H. subst artifacts.
  assert (Upload w a sched = (Val (Some err), [], (collect w a).2)) as Hup.
  { unfold Upload, collect.
    destruct (collect_paths _ _ _ _ _ _) as [res tr]. simpl in Hcollect.
    by subst res. }
  split_and!; [done..|]. rewrite Hup. apply collect_logs.
Qed.

Lemma collect_error_no_manifest_witness :
  Upload unreadable_file sample_uploader sample_schedule
  = (Val (Some "open /work/b.log: permission denied"), [],
     [LogDebug "Globbing /work for *.log"]).
Proof.
  destruct (collect_error_no_manifest unreadable_file sample_uploader
              sample_schedule [] "open /work/b.log: permission denied" eq_refl)
    as (_ & Hup & _).
  exact Hup.
Defined.



Lemma prefix_app (s t : string) : String.prefix s (s +:+ t) = true.
Proof.
  induction s as [|c s IH]; simpl; [by destruct t|].
  by destruct (ascii_dec c c).
Qed.

Lemma string_drop_app (s t : string) :
  string_drop (String.length s) (s +:+ t) = t.
Proof. induction s as [|c s IH]; simpl; [by destruct t|done]. Qed.

Lemma strings_Replace_first_prefix (s t : string) :
  strings_Replace_first (s +:+ t) s = t.
Proof.
  assert (∀ u old, strings_Replace_first u old
    = if strings_HasPrefix u old then string_drop (String.length old) u
      else match u with
           | String c u' => String c (strings_Replace_first u' old)
           | EmptyString => EmptyString
           end) as Hunfold by (by intros [|??] ?).
  rewrite Hunfold. unfold strings_HasPrefix.
  by rewrite prefix_app, string_drop_app.
Qed.

Lemma strings_TrimPrefix_separator (c : ascii) (s : string) :
  strings_TrimPrefix (String c s) (String c EmptyString) = s.
Proof.
  unfold strings_TrimPrefix, strings_HasPrefix. simpl.
  destruct (ascii_dec c c); [|done]. by destruct s.
Qed.

(** X9. A file below the working directory gets the path relative to it:
    when the absolute path of a matched file is the working directory, a
    separator and [rel], and the file is no directory and can be opened,
    the next artifact of the manifest has [Path] [rel], the absolute path,
    the pattern, the size of the file and the checksum of its bytes, and
    the loop goes on with the other files. *)
Theorem collect_relative_path w a wd globPath file files rel fileInfo opened
    openedInfo artifacts tr :
  let absolutePath := wd +:+ String (PathSeparator w) rel in
  Abs w file = inl absolutePath →
  Stat w absolutePath = inl fileInfo →
  IsDir fileInfo = false →
  Open w absolutePath = inl opened →
  File_Stat w opened = inl openedInfo →
  collect_files w a wd globPath (file :: files) artifacts tr
  = collect_files w a wd globPath files
      (artifacts
       ++ [mkArtifact (Uploader_API a) (JobID a) "new" rel absolutePath
             globPath (Size openedInfo) (Sha1Hex w (Copy w opened).1) ""])
      tr.
Proof.
  intros absolutePath Habs Hstat Hdir Hopen Hfstat. simpl.
  rewrite Habs, Hstat, Hdir. unfold build. rewrite Hopen, Hfstat.
  unfold absolutePath.
  by rewrite strings_Replace_first_prefix, strings_TrimPrefix_separator.
Qed.

Lemma collect_relative_path_witness :
  collect_files one_upload_fails sample_uploader "/work" "sub/*.log"
    ["sub/c.log"] (take 2 sample_manifest) []
  = (Val (inr sample_manifest), []).
Proof.
  etrans.
  - exact (collect_relative_path one_upload_fails sample_uploader "/work"
             "sub/*.log" "sub/c.log" [] "sub/c.log"
             (mkFileInfo false 0) "/work/sub/c.log"
             (mkFileInfo false 15) (take 2 sample_manifest)
             [] eq_refl eq_refl eq_refl eq_refl eq_refl).
  - vm_compute. reflexivity.
Defined.

(** *** Whose events the pool writes *)

Section PoolOwners.
Context (w : World) (k : UploaderKind).

Lemma pool_made_mono n m ev : (n ≤ m)%nat → pool_made n ev → pool_made m ev.
Proof. unfold pool_made. destruct (owner ev); [lia|done]. Qed.

Ltac solve_made :=
  repeat first [apply List.Forall_nil
               |apply List.Forall_cons; [unfold pool_made; simpl; done|]].

Lemma task_step_made i st :
  ∃ more, trace (task_step w k i st) = trace st ++ more
          ∧ Forall (pool_made (length (pcs st))) more.
Proof.
  unfold task_step.
  destruct (pcs st !! i) as [pc|] eqn:Hpc;
    [|exists []; by rewrite app_nil_r].
  assert (i < length (pcs st)) as Hi by (by eapply lookup_lt_Some).
  destruct (arts st !! i) as [a|]; [|exists []; by rewrite app_nil_r].
  destruct pc; simpl; repeat case_match; simpl;
    first [by (exists []; rewrite app_nil_r)
          |eexists; split; [reflexivity|solve_made]].
Qed.

Lemma pool_step_made c st :
  ∃ more, trace (pool_step w k c st) = trace st ++ more
          ∧ Forall (pool_made (length (pcs (pool_step w k c st)))) more.
Proof.
  destruct c as [|i]; simpl.
  - unfold main_step. case_decide; simpl.
    + eexists. split; [reflexivity|]. apply List.Forall_cons; [|done].
      unfold pool_made. simpl. rewrite length_app. simpl. lia.
    + exists []. by rewrite app_nil_r.
  - rewrite task_step_spawned. apply task_step_made.
Qed.

Lemma pool_step_grows c st :
  (length (pcs st) ≤ length (pcs (pool_step w k c st)))%nat.
Proof.
  destruct c as [|i]; simpl.
  - unfold main_step. case_decide; simpl; [rewrite length_app; simpl|]; lia.
  - by rewrite task_step_spawned.
Qed.

Lemma pool_run_grows sched :
  ∀ st, (length (pcs st) ≤ length (pcs (pool_run w k sched st)))%nat.
Proof.
  induction sched as [|c sched IH]; intros st; simpl; [done|].
  etrans; [apply (pool_step_grows c)|apply IH].
Qed.

Lemma pool_run_made sched :
  ∀ st, ∃ more,
    trace (pool_run w k sched st) = trace st ++ more
    ∧ Forall (pool_made (length (pcs (pool_run w k sched st)))) more.
Proof.
  induction sched as [|c sched IH]; intros st; simpl.
  - exists []. by rewrite app_nil_r.
  - destruct (pool_step_made c st) as (m1 & H1 & Hm1).
    destruct (IH (pool_step w k c st)) as (m2 & H2 & Hm2).
    exists (m1 ++ m2). split; [by rewrite H2, H1, app_assoc|].
    apply Forall_app. split; [|done].
    eapply Forall_impl; [exact Hm1|]. intros ev.
    apply pool_made_mono, pool_run_grows.
Qed.

End PoolOwners.

(** The errors appended are those that the tasks appended, none lost and
    none twice. *)
Lemma concat_one_more (f : nat → list error) (i : nat) (e : error)
    (l : list nat) :
  NoDup l → i ∈ l →
  concat ((λ j, if decide (j = i) then e :: f j else f j) <$> l)
  ≡ₚ e :: concat (f <$> l).
Proof.
  induction l as [|j l IH]; intros Hnd Hin; [by apply elem_of_nil in Hin|].
  apply NoDup_cons in Hnd as [Hj Hnd]. rewrite !fmap_cons. simpl.
  destruct (decide (j = i)) as [->|Hne].
  - simpl.
    replace ((λ j, if decide (j = i) then e :: f j else f j) <$> l)
      with (f <$> l); [reflexivity|].
    apply list_fmap_ext. intros ? j Hj'.
    rewrite decide_False; [done|]. intros ->. apply Hj.
    by eapply list_elem_of_lookup_2.
  - apply elem_of_cons in Hin as [?|Hin]; [congruence|].
    rewrite IH by done. by rewrite Permutation_middle.
Qed.

Lemma appended_by_task n tr :
  Forall (λ ev, ∀ i, owner ev = Some i → i < n) tr →
  appended tr ≡ₚ concat ((λ i, appended (task_view i tr)) <$> seq 0 n).
Proof.
  induction 1 as [|ev tr Hev Htr IH].
  - simpl. induction (seq 0 n) as [|? ? IHl]; [done|]. by rewrite fmap_cons.
  - assert ((∃ i e, ev = EvAppend i e) ∨ ¬ (∃ i e, ev = EvAppend i e))
      as [(i & e & ->)|Hno]
      by (destruct ev; first [by eauto|right; by intros (? & ? & ?)]).
    + change (appended (EvAppend i e :: tr)) with (e :: appended tr).
      rewrite IH.
      rewrite <-(concat_one_more _ i e);
        [|apply NoDup_seq|apply elem_of_seq; specialize (Hev i eq_refl); lia].
      replace ((λ j, appended (task_view j (EvAppend i e :: tr))) <$> seq 0 n)
        with ((λ j, if decide (j = i) then e :: appended (task_view j tr)
                    else appended (task_view j tr)) <$> seq 0 n);
        [reflexivity|].
      apply list_fmap_ext. intros _ j _.
      rewrite task_view_cons. simpl.
      destruct (decide (j = i)) as [->|Hne].
      * by rewrite decide_True.
      * rewrite decide_False; [done|]. congruence.
    + assert (appended (ev :: tr) = appended tr) as -> by
        (destruct ev; try done; destruct Hno; eauto).
      rewrite IH.
      replace ((λ j, appended (task_view j (ev :: tr))) <$> seq 0 n)
        with ((λ j, appended (task_view j tr)) <$> seq 0 n); [reflexivity|].
      apply list_fmap_ext. intros _ j _.
      rewrite task_view_cons. case_decide; [|done].
      destruct ev; try done. destruct Hno; eauto.
Qed.

(** *** The outcome of [upload] *)

Lemma outcome_perm (l l' : list error) : l ≡ₚ l' → outcome l = outcome l'.
Proof.
  intros Hp. unfold outcome.
  destruct l as [|e l], l' as [|e' l']; try done.
  - by apply Permutation_nil_cons in Hp.
  - symmetry in Hp. by apply Permutation_nil_cons in Hp.
Qed.

Lemma pool_start_unowned w a k artifacts :
  Forall (λ ev, owner ev = None) (trace (pool_start w a k artifacts)).
Proof.
  simpl. apply List.Forall_cons; [done|]. apply Forall_app. split.
  - apply URL_events_unowned.
  - by apply List.Forall_cons.
Qed.

(** The pool that [upload] runs, when it has come to its end. *)
Lemma upload_pool w a sched artifacts k :
  registers w a k artifacts →
  let st := pool_complete w k sched (pool_start w a k artifacts) in
  arts st = imap (uploaded w k) artifacts
  ∧ errors st ≡ₚ all_errors w k artifacts
  ∧ (∃ more, trace st = trace (pool_start w a k artifacts) ++ more
             ∧ Forall (pool_made (length artifacts)) more
             ∧ appended more = errors st)
  ∧ upload w a sched artifacts =
      (outcome (errors st), arts st,
       trace st ++ EvWait :: match outcome (errors st) with
                             | Exit => [LogFatal upload_failed]
                             | _ => []
                             end).
Proof.
  intros (Hchoose & Hsetup & Hcreate) st. subst st.
  set (arts0 := assign_URLs w k artifacts).
  set (st0 := pool_start w a k artifacts).
  set (st := pool_complete w k sched st0).
  assert (length arts0 = length artifacts) as Hlen0
    by (unfold arts0, assign_URLs; by rewrite length_fmap).
  pose proof (pool_start_unowned w a k artifacts) as Hun. fold st0 in Hun.
  pose proof (pool_inv_start w k arts0 (trace st0) Hun) as Hinv0.
  change (mkPool arts0 [] None [] (trace st0)) with st0 in Hinv0.
  destruct (pool_complete_done w k arts0 sched st0 Hinv0)
    as (Hinv & Hlock & Hdone).
  fold st in Hinv, Hlock, Hdone.
  pose proof Hinv as [Hlen Hsp Htask _ _ Herr _].
  assert (∃ more, trace st = trace st0 ++ more
                  ∧ Forall (pool_made (length artifacts)) more)
    as (more & Hmore & Hmade).
  { destruct (pool_run_made w k (sched ++ rest_schedule (pool_run w k sched st0))
                st0) as (more & Hmore & Hmade).
    rewrite pool_run_app in Hmore, Hmade.
    exists more. split; [exact Hmore|].
    eapply Forall_impl; [exact Hmade|]. intros ev.
    apply pool_made_mono.
    change (length (pcs st) ≤ length artifacts)%nat. lia. }
  assert (∀ i artifact, artifacts !! i = Some artifact →
    arts st !! i = Some (uploaded w k i artifact)
    ∧ appended (task_view i (trace st)) = task_errors w k i artifact) as Hall.
  { intros i artifact Hi.
    assert (arts0 !! i
            = Some (set_URL (Uploader_URL w k artifact) artifact)) as Ha0
      by (unfold arts0, assign_URLs; by rewrite list_lookup_fmap, Hi).
    specialize (Htask i _ Ha0).
    rewrite Hdone in Htask by (rewrite Hlen0; by eapply lookup_lt_Some).
    destruct Htask as [Hnow Hview]. split; [exact Hnow|].
    rewrite Hview. unfold task_errors, uploaded.
    destruct (Uploader_Upload w k i _); simpl;
      destruct (Artifact_Update w i _); done. }
  assert (appended more = errors st) as Happ.
  { rewrite Herr, Hmore, appended_app.
    by destruct (unowned_events 0 (trace st0) None Hun) as (_ & -> & _). }
  split_and!.
  - apply list_eq. intros i. rewrite list_lookup_imap.
    destruct (artifacts !! i) as [artifact|] eqn:Hi; simpl.
    + by destruct (Hall i artifact Hi).
    + apply lookup_ge_None_2. apply lookup_ge_None_1 in Hi. lia.
  - rewrite Herr.
    rewrite (appended_by_task (length artifacts)).
    + unfold all_errors.
      replace (imap (task_errors w k) artifacts)
        with ((λ i, appended (task_view i (trace st)))
                <$> seq 0 (length artifacts)); [reflexivity|].
      apply list_eq. intros i. rewrite list_lookup_fmap, list_lookup_imap.
      destruct (artifacts !! i) as [artifact|] eqn:Hi; simpl.
      * rewrite lookup_seq_lt by (by eapply lookup_lt_Some). simpl.
        f_equal. by destruct (Hall i artifact Hi).
      * rewrite lookup_seq_ge; [done|]. by apply lookup_ge_None_1.
    + rewrite Hmore. apply Forall_app. split.
      * eapply Forall_impl; [exact Hun|]. intros ev Hev i. congruence.
      * eapply Forall_impl; [exact Hmade|]. intros ev Hev i Hi.
        unfold pool_made in Hev. by rewrite Hi in Hev.
  - by exists more.
  - unfold upload. rewrite Hchoose, Hsetup. cbn zeta. rewrite Hcreate.
    repeat match goal with
           | |- context [pool_complete w k sched ?x] =>
               progress change (pool_complete w k sched x) with st
           end.
    unfold outcome.
    destruct (errors st) as [|e errs]; simpl.
    + done.
    + by rewrite <-app_assoc.
Qed.

(** X10. Once the manifest is registered, whatever the schedule of the
    pool: the errors appended to the shared list are, up to their order,
    the errors of the uploads and of the pushes of the artifacts, none
    lost and none twice; [upload] ends the process when there is one and
    returns nil when there is none. *)
Theorem upload_collects_every_error w a sched artifacts k :
  registers w a k artifacts →
  appended (upload w a sched artifacts).2 ≡ₚ all_errors w k artifacts
  ∧ (upload w a sched artifacts).1.1 = outcome (all_errors w k artifacts).
Proof.
  intros Hreg.
  destruct (upload_pool w a sched artifacts k Hreg)
    as (_ & Hperm & (more & Hmore & _ & Happ) & ->).
  simpl. split.
  - rewrite Hmore, <-app_assoc, !appended_app, Happ.
    destruct (unowned_events 0 _ None (pool_start_unowned w a k artifacts))
      as (_ & -> & _).
    simpl. rewrite <-Hperm.
    by destruct (outcome _); simpl; rewrite app_nil_r.
  - by apply outcome_perm.
Qed.

Lemma upload_collects_every_error_witness :
  appended (upload one_upload_fails sample_uploader sample_schedule
              sample_manifest).2 ≡ₚ ["connection reset"]
  ∧ (upload one_upload_fails sample_uploader sample_schedule
       sample_manifest).1.1 = Exit.
Proof.
  exact (upload_collects_every_error one_upload_fails sample_uploader
           sample_schedule sample_manifest S3Uploader
           (conj eq_refl (conj eq_refl eq_refl))).
Defined.

(** What [upload] returns and leaves behind the pointers is the same for
    every schedule. *)
Lemma upload_result_fixed w a artifacts :
  ∃ res, ∀ sched, (upload w a sched artifacts).1 = res.
Proof.
  destruct (choose_uploader (Destination a)) as [k|err] eqn:Hchoose;
    [|eexists; intros sched; unfold upload; by rewrite Hchoose].
  destruct (Uploader_Setup w k (Destination a)) as [err|] eqn:Hsetup;
    [eexists; intros sched; unfold upload; by rewrite Hchoose, Hsetup|].
  destruct (Batch_Create w (Uploader_API a) (JobID a)
              (assign_URLs w k artifacts)) as [err|] eqn:Hcreate.
  { eexists. intros sched. unfold upload. rewrite Hchoose, Hsetup.
    cbn zeta. by rewrite Hcreate. }
  exists (outcome (all_errors w k artifacts), imap (uploaded w k) artifacts).
  intros sched.
  destruct (upload_pool w a sched artifacts k) as (Harts & Hperm & _ & ->);
    [done|].
  simpl. by rewrite Harts, (outcome_perm _ _ Hperm).
Qed.

(** X11. What [Upload] returns and the artifacts it leaves behind do not
    depend on the order in which the pool runs the tasks. *)
Theorem Upload_schedule_independent w a sched sched' :
  (Upload w a sched).1 = (Upload w a sched').1.
Proof.
  unfold Upload.
  destruct (collect w a) as [[[manifest [err|]]| |] tr]; try done.
  case_decide; [done|].
  destruct (upload_result_fixed w a manifest) as [res Hres].
  pose proof (Hres sched) as H1. pose proof (Hres sched') as H2.
  destruct (upload w a sched manifest) as [[r1 a1] t1].
  destruct (upload w a sched' manifest) as [[r2 a2] t2].
  simpl in *. congruence.
Qed.

(** X12. The trace of [upload], once the manifest is registered: the one
    setup of the uploader, the URL of every artifact, the one registration,
    then nothing but log lines and what the tasks of the artifacts of the
    manifest do, then [Wait], and the fatal line when the process is
    ended. *)
Theorem upload_trace_shape w a sched artifacts k :
  registers w a k artifacts →
  ∃ more,
    (upload w a sched artifacts).2
    = EvSetup k (Destination a)
      :: URL_events k artifacts
      ++ EvCreate (Uploader_API a) (JobID a) (assign_URLs w k artifacts)
      :: more
      ++ EvWait :: match (upload w a sched artifacts).1.1 with
                   | Exit => [LogFatal upload_failed]
                   | _ => []
                   end
    ∧ Forall (pool_made (length artifacts)) more.
Proof.
  intros Hreg.
  destruct (upload_pool w a sched artifacts k Hreg)
    as (_ & _ & (more & Hmore & Hmade & _) & ->).
  exists more. split; [|done].
  simpl. rewrite Hmore. simpl. by rewrite <-!app_assoc.
Qed.

Lemma upload_trace_shape_witness :
  ∃ more,
    (upload one_upload_fails sample_uploader sample_schedule sample_manifest).2
    = EvSetup S3Uploader "s3://bucket/path"
      :: URL_events S3Uploader sample_manifest
      ++ EvCreate (APIClient "https://agent.example") "job-1"
           (assign_URLs one_upload_fails S3Uploader sample_manifest)
      :: more ++ [EvWait; LogFatal upload_failed]
    ∧ Forall (pool_made 3) more.
Proof.
  exact (upload_trace_shape one_upload_fails sample_uploader sample_schedule
           sample_manifest S3Uploader (conj eq_refl (conj eq_refl eq_refl))).
Defined.

(** *** The whole of [Upload] *)

Lemma logs_not_pool tr :
  Forall (λ ev, is_log ev = true) tr →
  Forall (λ ev, is_pool_event ev = false) tr.
Proof. intros H. eapply Forall_impl; [exact H|]. by intros []. Qed.

Lemma concat_imap_nil {A B} (f : nat → A → list B) (l : list A) i x :
  concat (imap f l) = [] → l !! i = Some x → f i x = [].
Proof.
  revert f i. induction l as [|y l IH]; intros f i Hnil Hi; [done|].
  simpl in Hnil. apply app_eq_nil in Hnil as [Hy Hl].
  destruct i as [|i]; simplify_eq/=; [done|].
  by apply (IH (f ∘ S)).
Qed.

(** X13. When [Upload] returns an error, no task was submitted, no file
    was uploaded and no artifact was pushed; the error is that of
    collection, or else a manifest was collected and the error is that of
    the choice of the uploader, of its setup or of the registration, and
    the artifacts are left in state "new". *)
Theorem Upload_error_uploads_nothing w a sched err :
  (Upload w a sched).1.1 = Val (Some err) →
  Forall (λ ev, is_pool_event ev = false) (Upload w a sched).2
  ∧ Forall (λ artifact, State artifact = "new") (Upload w a sched).1.2
  ∧ ∃ manifest,
      (collect w a).1 = Val (manifest, Some err)
      ∨ ((collect w a).1 = Val (manifest, None)
         ∧ manifest ≠ []
         ∧ match choose_uploader (Destination a) with
           | inr err' => err' = err
           | inl k =>
               Uploader_Setup w k (Destination a) = Some err
               ∨ (Uploader_Setup w k (Destination a) = None
                  ∧ Batch_Create w (Uploader_API a) (JobID a)
                      (assign_URLs w k manifest) = Some err)
           end).
Proof.
  intros Hres.
  pose proof (collect_logs w a) as Hlogs.
  pose proof (collect_paths_collected w a (Getwd w)
                (strings_Split (Paths a) ";"%char) ltac:(done) [] []
                ltac:(by constructor)) as Hcollected.
  fold (collect w a) in Hcollected.
  unfold Upload in *.
  destruct (collect w a) as [[[manifest [e|]]| |] tr]; simpl in *; try done.
  { simplify_eq. split_and!; [by apply logs_not_pool|done|eauto]. }
  case_decide as Hempty; [done|].
  assert (Forall (λ artifact, State artifact = "new") manifest) as Hnew
    by (eapply Forall_impl; [exact Hcollected|]; by intros ? (? & _)).
  assert (Forall (λ artifact, State artifact = "new")
            (assign_URLs w FormUploader manifest)
          ∧ Forall (λ artifact, State artifact = "new")
              (assign_URLs w S3Uploader manifest)) as [Hnew1 Hnew2].
  { unfold assign_URLs. split; apply Forall_fmap;
      (eapply Forall_impl; [exact Hnew|]); by intros ?. }
  assert (∀ tr', Forall (λ ev, is_pool_event ev = false) tr' →
    Forall (λ ev, is_pool_event ev = false)
      ((tr ++ [LogInfo ("Found " +:+ sprintf_d (Z.of_nat (length manifest))
                          +:+ " files that match " +:+ dquote
                          +:+ Paths a +:+ dquote)]) ++ tr')) as Hfront.
  { intros tr' Htr'. apply Forall_app. split; [|done].
    apply Forall_app. split; [by apply logs_not_pool|by constructor]. }
  assert (manifest ≠ []) as Hne by (by destruct manifest).
  destruct (choose_uploader (Destination a)) as [k|e] eqn:Hchoose.
  - destruct (Uploader_Setup w k (Destination a)) as [e|] eqn:Hsetup.
    { unfold upload in *. rewrite Hchoose, Hsetup in *. simpl in *.
      simplify_eq. split_and!.
      - apply Hfront. by repeat constructor.
      - done.
      - exists manifest. right. eauto. }
    destruct (Batch_Create w (Uploader_API a) (JobID a)
                (assign_URLs w k manifest)) as [e|] eqn:Hcreate.
    { unfold upload in *. rewrite Hchoose, Hsetup in *. cbn zeta in *.
      rewrite Hcreate in *. simpl in *. simplify_eq. split_and!.
      - apply Hfront. apply List.Forall_cons; [done|].
        apply Forall_app. split; [apply URL_events_not_pool|].
        by repeat constructor.
      - by destruct k.
      - exists manifest. right. eauto. }
    destruct (upload_pool w a sched manifest k) as (_ & _ & _ & Hup);
      [done|].
    rewrite Hup in Hres. simpl in Hres. unfold outcome in Hres.
    by case_decide.
  - unfold upload in *. rewrite Hchoose in *. simpl in *. simplify_eq.
    split_and!.
    + apply Hfront. constructor.
    + done.
    + exists manifest. right. eauto.
Qed.

Lemma Upload_error_uploads_nothing_witness :
  Forall (λ ev, is_pool_event ev = false)
    (Upload registration_refused sample_uploader sample_schedule).2
  ∧ Forall (λ artifact, State artifact = "new")
      (Upload registration_refused sample_uploader sample_schedule).1.2.
Proof.
  destruct (Upload_error_uploads_nothing registration_refused sample_uploader
              sample_schedule "422 Unprocessable Entity" eq_refl)
    as (Hpool & Hnew & _).
  by split.
Defined.

(** X14. When [Upload] returns nil, a manifest was collected without an
    error, and either it is empty, or every upload and every push
    succeeded and every artifact is left in state "finished", with the URL
    that the chosen uploader gives it. *)
Theorem Upload_success w a sched :
  (Upload w a sched).1.1 = Val None →
  ∃ manifest,
    (collect w a).1 = Val (manifest, None)
    ∧ match manifest with
      | [] => (Upload w a sched).1.2 = []
      | _ =>
          ∃ k,
            choose_uploader (Destination a) = inl k
            ∧ all_errors w k manifest = []
            ∧ (Upload w a sched).1.2
              = (λ artifact,
                   set_State "finished"
                     (set_URL (Uploader_URL w k artifact) artifact))
                <$> manifest
      end.
Proof.
  intros Hres. unfold Upload in *.
  destruct (collect w a) as [[[manifest [e|]]| |] tr]; simpl in *; try done.
  exists manifest. split; [done|].
  case_decide as Hempty; [by destruct manifest|].
  assert (manifest ≠ []) as Hne by (by destruct manifest).
  assert (∃ k,
    choose_uploader (Destination a) = inl k
    ∧ all_errors w k manifest = []
    ∧ (let '(res, artifacts, tr') := upload w a sched manifest in
       (res, artifacts,
        (tr ++ [LogInfo ("Found " +:+ sprintf_d (Z.of_nat (length manifest))
                           +:+ " files that match " +:+ dquote
                           +:+ Paths a +:+ dquote)]) ++ tr')).1.2
      = (λ artifact,
           set_State "finished" (set_URL (Uploader_URL w k artifact) artifact))
        <$> manifest) as Hgoal; [|by destruct manifest].
  destruct (choose_uploader (Destination a)) as [k|e] eqn:Hchoose;
    [|unfold upload in Hres; by rewrite Hchoose in Hres].
  destruct (Uploader_Setup w k (Destination a)) as [e|] eqn:Hsetup;
    [unfold upload in Hres; by rewrite Hchoose, Hsetup in Hres|].
  destruct (Batch_Create w (Uploader_API a) (JobID a)
              (assign_URLs w k manifest)) as [e|] eqn:Hcreate.
  { unfold upload in Hres. rewrite Hchoose, Hsetup in Hres.
    cbn zeta in Hres. by rewrite Hcreate in Hres. }
  destruct (upload_pool w a sched manifest k) as (Harts & Hperm & _ & Hup);
    [done|].
  rewrite Hup in *. simpl in *.
  assert (all_errors w k manifest = []) as Hnone.
  { rewrite (outcome_perm _ _ Hperm) in Hres. unfold outcome in Hres.
    by case_decide. }
  exists k. split_and!; [done..|].
  rewrite Harts, <-imap_const. apply imap_ext. intros i artifact Hi.
  pose proof (concat_imap_nil _ _ _ _ Hnone Hi) as Herrs.
  unfold task_errors in Herrs. apply app_eq_nil in Herrs as [Hup' _].
  unfold uploaded. simpl.
  by destruct (Uploader_Upload w k i _).
Qed.

Lemma Upload_success_witness :
  ∃ manifest,
    (collect all_succeed sample_uploader).1 = Val (manifest, None)
    ∧ match manifest with
      | [] => (Upload all_succeed sample_uploader sample_schedule).1.2 = []
      | _ =>
          ∃ k,
            choose_uploader "s3://bucket/path" = inl k
            ∧ all_errors all_succeed k manifest = []
            ∧ (Upload all_succeed sample_uploader sample_schedule).1.2
              = (λ artifact,
                   set_State "finished"
                     (set_URL (Uploader_URL all_succeed k artifact) artifact))
                <$> manifest
      end.
Proof.
  exact (Upload_success all_succeed sample_uploader sample_schedule eq_refl).
Defined.

End ArtifactUpload.
